(** * Packagist datasource: a shallow embedding of
      [lib/datasource/packagist/index.ts] and the properties of its
      registry resolution, shard caching and lookup policy.

    The asynchronous functions of the module are embedded in a state and
    exception monad over an explicit [World]: the process-wide
    [global.repoCache], the persistent [renovateCache], the number of HTTP
    requests issued so far and the trace of observable events.  The
    external collaborators (transport, host rules, [url.resolve], the
    tasks that run during a [delay]) are the fields of an [Env]. *)

From Stdlib Require Import String Ascii ZArith List Bool Lia.
From stdpp Require Import base option gmap strings list.

Local Open Scope string_scope.
Local Open Scope Z_scope.

(** ** JavaScript values *)

Module Js.

(** A value that can be [undefined], [null] or a proper object. *)
Inductive Nullable (A : Type) : Type :=
| Undefined
| Null
| Val (a : A).
Arguments Undefined {A}.
Arguments Null {A}.
Arguments Val {A} a.

(** Objects are truthy, [undefined] and [null] are not. *)
Definition truthy {A} (v : Nullable A) : bool :=
  match v with Val _ => true | _ => false end.

(** An optional string property: absent ([undefined]) or a string; the
    empty string is falsy. *)
Definition str_truthy (o : option string) : bool :=
  match o with
  | Some s => negb (String.eqb s "")
  | None => false
  end.

(** [a || b] on optional strings. *)
Definition str_or (a b : option string) : option string :=
  if str_truthy a then a else b.

Fixpoint drop (n : nat) (s : string) : string :=
  match n, s with
  | O, _ => s
  | S n', String _ s' => drop n' s'
  | S _, EmptyString => EmptyString
  end.

(** Splits [s] around the first occurrence of [pat]. *)
Fixpoint split_first (pat s : string) : option (string * string) :=
  if String.prefix pat s then Some (EmptyString, drop (String.length pat) s)
  else match s with
       | EmptyString => None
       | String c s' =>
           match split_first pat s' with
           | Some (b, a) => Some (String c b, a)
           | None => None
           end
       end.

(** The replacement patterns of [String.prototype.replace] for a string
    pattern (no capture groups): [$$], [$&], [$`] and [$']. *)
Fixpoint substitution (matched before after repl : string) : string :=
  match repl with
  | EmptyString => EmptyString
  | String c r =>
      if Ascii.eqb c "$" then
        match r with
        | String d r' =>
            if Ascii.eqb d "$" then String "$" (substitution matched before after r')
            else if Ascii.eqb d "&" then matched ++ substitution matched before after r'
            else if Ascii.eqb d "`" then before ++ substitution matched before after r'
            else if Ascii.eqb d "'" then after ++ substitution matched before after r'
            else String c (substitution matched before after r)
        | EmptyString => String c EmptyString
        end
      else String c (substitution matched before after r)
  end.

(** [s.replace(pat, repl)] with a string pattern: only the first
    occurrence is replaced. *)
Definition replace (s pat repl : string) : string :=
  match split_first pat s with
  | Some (b, a) => b ++ substitution pat b a repl ++ a
  | None => s
  end.

Fixpoint endsWith (s suffix : string) : bool :=
  String.eqb s suffix ||
  match s with
  | EmptyString => false
  | String _ s' => endsWith s' suffix
  end.

(** [s.replace(/^v/, '')] *)
Definition strip_leading_v (s : string) : string :=
  match s with
  | String c s' => if Ascii.eqb c "v" then s' else s
  | EmptyString => s
  end.

(** [s.replace(/\/?$/, '/')]: the first match of the pattern is the
    final slash when there is one, the empty match at the end
    otherwise. *)
Definition with_trailing_slash (s : string) : string :=
  if endsWith s "/" then s else s ++ "/".

End Js.

Import Js.

(** ** Data model *)

(** One entry of a raw version map. *)
Record Source := { src_url : option string }.

Record RawRelease := {
  rr_homepage : option string;
  rr_source : option Source;
  rr_time : option string;
}.

(** A raw version map: the own properties of the parsed object in
    [Object.keys] order (keys are unique in a parsed object, so
    [versions[version]] is the value paired with the key). *)
Definition RawVersions := list (string * RawRelease).

Record Release := {
  version : string;
  gitRef : string;
  releaseTimestamp : option string;
}.

Record ReleaseResult := {
  name : option string;
  releases : option (list Release);
  homepage : option string;
  sourceUrl : option string;
}.

Definition set_name (n : string) (d : ReleaseResult) : ReleaseResult :=
  {| name := Some n; releases := releases d;
     homepage := homepage d; sourceUrl := sourceUrl d |}.

Definition set_releases (r : list Release) (d : ReleaseResult) : ReleaseResult :=
  {| name := name d; releases := Some r;
     homepage := homepage d; sourceUrl := sourceUrl d |}.

Definition set_homepage (h : option string) (d : ReleaseResult) : ReleaseResult :=
  {| name := name d; releases := releases d;
     homepage := h; sourceUrl := sourceUrl d |}.

Definition set_sourceUrl (u : option string) (d : ReleaseResult) : ReleaseResult :=
  {| name := name d; releases := releases d;
     homepage := homepage d; sourceUrl := u |}.

(** ** Release normalizer *)

(** [release.source && release.source.url] *)
Definition source_url (r : RawRelease) : option string :=
  match rr_source r with
  | Some s => src_url s
  | None => None
  end.

(** The callback given to [map]: it updates [dep] and yields the release
    of one version key. *)
Definition release_of (dep : ReleaseResult) (kv : string * RawRelease)
  : ReleaseResult * Release :=
  let '(v, release) := kv in
  let dep1 := set_homepage (str_or (rr_homepage release) (homepage dep)) dep in
  let dep2 := if str_truthy (source_url release)
              then set_sourceUrl (source_url release) dep1
              else dep1 in
  (dep2, {| version := strip_leading_v v;
            gitRef := v;
            releaseTimestamp := rr_time release |}).

(** [Object.keys(versions).map(...)], threading the mutated [dep]. *)
Fixpoint map_releases (dep : ReleaseResult) (vs : RawVersions)
  : ReleaseResult * list Release :=
  match vs with
  | [] => (dep, [])
  | kv :: rest =>
      let '(dep1, r) := release_of dep kv in
      let '(dep2, rs) := map_releases dep1 rest in
      (dep2, r :: rs)
  end.

Definition extractDepReleases (versions : option RawVersions) : ReleaseResult :=
  let dep := {| name := None; releases := None;
                homepage := None; sourceUrl := None |} in
  match versions with
  | None => set_releases [] dep
  | Some vs =>
      let '(dep1, rs) := map_releases dep vs in
      set_releases rs dep1
  end.

(** ** Transport, credentials and documents *)

Record HostRule := {
  username : option string;
  password : option string;
}.

Record Headers := { authorization : option string }.

Record HttpOptions := {
  auth : option string;
  headers : option Headers;
}.

Definition no_opts : HttpOptions := {| auth := None; headers := None |}.

(** The structured error object of the transport. *)
Record JsError := {
  code : option string;
  statusCode : option Z;
  url : option string;
  host : option string;
}.

(** A [TypeError] raised by a property access on [undefined]: it has none
    of the transport fields. *)
Definition TypeError : JsError :=
  {| code := None; statusCode := None; url := None; host := None |}.

(** What a [throw] carries: an error object, or the [DatasourceError]
    wrapped around a caught one. *)
Inductive Exn : Type :=
| Raised (e : JsError)
| DatasourceError (err : Exn).

(** The fields the handlers read; a [DatasourceError] has none of them. *)
Definition fields (x : Exn) : JsError :=
  match x with
  | Raised e => e
  | DatasourceError _ => TypeError
  end.

Record Sha := { sha256 : string }.

Record RegistryFile := {
  key : string;
  file_sha256 : string;
}.

(** A parsed JSON object used as a map, in [Object.entries] order.  The
    documents have the shapes of their TypeScript types: what is typed
    as a record is an object, not an array. *)
Definition Dict (V : Type) := list (string * V).

(** [obj[k]] on own properties; [None] is [undefined]. *)
Fixpoint get {V} (o : Dict V) (k : string) : option V :=
  match o with
  | [] => None
  | (k', v) :: rest => if String.eqb k' k then Some v else get rest k
  end.

(** ** Plain objects and [Object.prototype] *)

(** What every plain object inherits from [Object.prototype]: eleven
    functions and the accessor [__proto__].  Each of them is truthy when
    read, and has no enumerable property of its own. *)
Inductive ProtoMember : Type :=
| the_constructor
| defineGetter
| defineSetter
| hasOwnProperty
| lookupGetter
| lookupSetter
| isPrototypeOf
| propertyIsEnumerable
| toString
| valueOf
| proto
| toLocaleString.

Definition Object_prototype : Dict ProtoMember :=
  [("constructor", the_constructor); ("__defineGetter__", defineGetter);
   ("__defineSetter__", defineSetter); ("hasOwnProperty", hasOwnProperty);
   ("__lookupGetter__", lookupGetter); ("__lookupSetter__", lookupSetter);
   ("isPrototypeOf", isPrototypeOf);
   ("propertyIsEnumerable", propertyIsEnumerable); ("toString", toString);
   ("valueOf", valueOf); ("__proto__", proto);
   ("toLocaleString", toLocaleString)].

Definition member_of (k : string) : option ProtoMember := get Object_prototype k.

(** [k] is a name that a plain object inherits. *)
Definition inherits (k : string) : bool :=
  match member_of k with Some _ => true | None => false end.

(** What [obj[name]] can give besides [undefined], [null] and the empty
    string: a release result; a member of [Object.prototype] (for
    [__proto__], the prototype itself); and, read through a release
    result that has become the prototype of an object, its list of
    releases or one of its strings, which is then not empty. *)
Inductive Value : Type :=
| Dep (d : ReleaseResult)
| Member (m : ProtoMember)
| ReleaseList (rs : list Release)
| Text (c : ascii) (s : string).

(** A string as a value, when it is truthy. *)
Definition text (o : option string) : option Value :=
  match o with
  | Some (String c s) => Some (Text c s)
  | _ => None
  end.

(** [includesPackages]: an object literal to which release results are
    assigned.  An assignment to [__proto__] does not create a property:
    it makes the assigned object the prototype. *)
Record Includes := {
  inc_own : gmap string ReleaseResult;
  inc_proto : option ReleaseResult;
}.

#[global] Instance includes_empty : Empty Includes :=
  {| inc_own := ∅; inc_proto := None |}.

(** [includesPackages[k] = dep] *)
Definition includes_set (k : string) (dep : ReleaseResult) (inc : Includes)
  : Includes :=
  if String.eqb k "__proto__"
  then {| inc_own := inc_own inc; inc_proto := Some dep |}
  else {| inc_own := <[k := dep]> (inc_own inc); inc_proto := inc_proto inc |}.

(** [p[k]] for a release result [p] used as a prototype: its own
    properties, then [Object.prototype].  [None] is a falsy value. *)
Definition proto_property (p : ReleaseResult) (k : string) : option Value :=
  if String.eqb k "releases" then ReleaseList <$> releases p
  else if String.eqb k "name" then text (name p)
  else if String.eqb k "homepage" then text (homepage p)
  else if String.eqb k "sourceUrl" then text (sourceUrl p)
  else Member <$> member_of k.

(** [includesPackages[k]]: an own property, or what the prototype chain
    gives.  [None] is a falsy value. *)
Definition includes_get (inc : Includes) (k : string) : option Value :=
  match inc_own inc !! k with
  | Some dep => Some (Dep dep)
  | None =>
      match inc_proto inc with
      | Some p =>
          if String.eqb k "__proto__" then Some (Dep p) else proto_property p k
      | None => Member <$> member_of k
      end
  end.

(** [packages.json].  A package may be mapped to [null]. *)
Record PackageMeta := {
  pm_includes : option (Dict Sha);
  pm_packages : option (Dict (option RawVersions));
  pm_provider_includes : option (Dict Sha);
  pm_providers : option (Dict Sha);
  pm_providers_url : option string;
}.

Record RegistryMeta := {
  files : option (list RegistryFile);
  rm_providerPackages : gmap string string;
  rm_providersUrl : option string;
  includesFiles : option (list RegistryFile);
  rm_packages : option (Dict (option RawVersions));
}.

Record PackagistFile := {
  providers : option (Dict Sha);
  pf_packages : option (Dict (option RawVersions));
}.

(** The body of a per-package document. *)
Record PackageBody := { pb_packages : option (Dict (option RawVersions)) }.

Record AllPackages := {
  packages : option (Dict (option RawVersions));
  providersUrl : option string;
  providerPackages : gmap string string;
  includesPackages : Includes;
}.

(** ** The world *)

(** An entry of [global.repoCache]: the string ['pending'], an assembled
    view, or [null]. *)
Inductive RepoEntry : Type :=
| Pending
| Resolved (v : AllPackages)
| Failed.

(** A record of the namespace [datasource-packagist-files]. *)
Record FileRecord := {
  res : PackagistFile;
  rec_sha256 : string;
}.

Inductive Event : Type :=
| HttpGet (u : string) (opts : HttpOptions)
| CacheGet (ns k : string)
| CacheSet (ns k : string) (minutes : Z)
| Delay (ms : Z)
| Log (level msg : string).

(** [renovateCache] keeps the two namespaces of this module apart; every
    record is stored with the expiry it was written with. *)
Record World := {
  repoCache : gmap string RepoEntry;
  files_ns : gmap string (FileRecord * Z);
  org_ns : gmap string (option ReleaseResult * Z);
  requests : nat;
  trace : list Event;
}.

Record Env := {
  (** [hostRules.find({ hostType, url })] *)
  hostRules_find : string -> string -> HostRule;
  (** [URL.resolve(from, to)] *)
  URL_resolve : string -> string -> string;
  (** [http.getJson<T>(url, opts)] for the three documents, by the index
      of the request. *)
  root_document : nat -> string -> HttpOptions -> JsError + PackageMeta;
  shard_document : nat -> string -> HttpOptions -> JsError + PackagistFile;
  package_document : nat -> string -> HttpOptions -> JsError + PackageBody;
  (** What the other tasks do to [global.repoCache] during a [delay]. *)
  other_tasks : gmap string RepoEntry -> gmap string RepoEntry;
  (** How many polls of a pending entry are followed. *)
  poll_budget : nat;
}.

(** ** The monad *)

Inductive Outcome (A : Type) : Type :=
| Ok (a : A)
| Throw (e : Exn)
| Hang.
Arguments Ok {A} a.
Arguments Throw {A} e.
Arguments Hang {A}.

Definition M (A : Type) : Type := World -> Outcome A * World.

Definition ret {A} (a : A) : M A := fun w => (Ok a, w).

Definition bind {A B} (m : M A) (f : A -> M B) : M B :=
  fun w =>
    match m w with
    | (Ok a, w') => f a w'
    | (Throw e, w') => (Throw e, w')
    | (Hang, w') => (Hang, w')
    end.

Definition throw {A} (e : Exn) : M A := fun w => (Throw e, w).

Definition try_catch {A} (body : M A) (handler : Exn -> M A) : M A :=
  fun w =>
    match body w with
    | (Throw e, w') => handler e w'
    | r => r
    end.

Declare Scope js_scope.
Delimit Scope js_scope with js.
Notation "'let*' x ':=' c1 'in' c2" := (bind c1 (fun x => c2))
  (at level 10, x pattern, c1 at level 100, c2 at level 200) : js_scope.
Local Open Scope js_scope.

Definition emit (e : Event) : M unit :=
  fun w => (Ok tt, {| repoCache := repoCache w; files_ns := files_ns w;
                      org_ns := org_ns w; requests := requests w;
                      trace := trace w ++ [e] |}).

Definition log (level msg : string) : M unit := emit (Log level msg).

(** One request: the event is recorded, the request counted, and the
    answer of the transport returned or thrown. *)
Definition request {A} (answer : nat -> string -> HttpOptions -> JsError + A)
  (u : string) (opts : HttpOptions) : M A :=
  fun w =>
    let w' := {| repoCache := repoCache w; files_ns := files_ns w;
                 org_ns := org_ns w; requests := S (requests w);
                 trace := trace w ++ [HttpGet u opts] |} in
    match answer (requests w) u opts with
    | inl e => (Throw (Raised e), w')
    | inr a => (Ok a, w')
    end.

Definition files_namespace : string := "datasource-packagist-files".
Definition org_namespace : string := "datasource-packagist-org".

Definition cache_get_file (k : string) : M (option FileRecord) :=
  let* _ := emit (CacheGet files_namespace k) in
  fun w => (Ok (fst <$> files_ns w !! k), w).

Definition cache_set_file (k : string) (r : FileRecord) (minutes : Z) : M unit :=
  let* _ := emit (CacheSet files_namespace k minutes) in
  fun w => (Ok tt, {| repoCache := repoCache w;
                      files_ns := <[k := (r, minutes)]> (files_ns w);
                      org_ns := org_ns w; requests := requests w;
                      trace := trace w |}).

(** [None] is a miss ([undefined]), [Some None] a stored [null]. *)
Definition cache_get_org (k : string) : M (option (option ReleaseResult)) :=
  let* _ := emit (CacheGet org_namespace k) in
  fun w => (Ok (fst <$> org_ns w !! k), w).

Definition cache_set_org (k : string) (d : option ReleaseResult) (minutes : Z)
  : M unit :=
  let* _ := emit (CacheSet org_namespace k minutes) in
  fun w => (Ok tt, {| repoCache := repoCache w; files_ns := files_ns w;
                      org_ns := <[k := (d, minutes)]> (org_ns w);
                      requests := requests w; trace := trace w |}).

Definition repo_read (k : string) : M (option RepoEntry) :=
  fun w => (Ok (repoCache w !! k), w).

Definition repo_write (k : string) (e : RepoEntry) : M unit :=
  fun w => (Ok tt, {| repoCache := <[k := e]> (repoCache w);
                      files_ns := files_ns w; org_ns := org_ns w;
                      requests := requests w; trace := trace w |}).

(** [for (const x of xs) { ... }] over an accumulator. *)
Fixpoint for_each {A S} (xs : list A) (body : S -> A -> M S) (s : S) : M S :=
  match xs with
  | [] => ret s
  | x :: rest => let* s' := body s x in for_each rest body s'
  end.

(** [pAll(queue, { concurrency: 5 })]: the results of the queue, in the
    order of the queue; the first rejection rejects the whole.  This is
    the schedule of the pool in which each fetch is finished before the
    next one starts.  It is what the pool does with a queue of at most
    one fetch.  With a longer queue up to five fetches are in flight at
    once: when all of them succeed the results are these, but when one
    fails, the pool has already started fetches that this schedule never
    runs, so the requests and cache reads of a failing assembly are
    counted here only for a queue of at most one fetch. *)
Fixpoint all {A B} (f : A -> M B) (xs : list A) : M (list B) :=
  match xs with
  | [] => ret []
  | x :: rest => let* b := f x in let* bs := all f rest in ret (b :: bs)
  end.

(** ** The datasource *)

Definition id : string := "packagist".

Definition default_registry : string := "https://packagist.org".

Section Datasource.

Variable env : Env.

Definition getHostOpts (u : string) : HttpOptions :=
  let rule := hostRules_find env id u in
  if str_truthy (username rule) && str_truthy (password rule)
  then {| auth := Some (default "" (username rule) ++ ":"
                          ++ default "" (password rule));
          headers := None |}
  else no_opts.

(** [opts.auth || (opts.headers && opts.headers.authorization)] *)
Definition has_credentials (opts : HttpOptions) : bool :=
  str_truthy (auth opts)
  || match headers opts with
     | Some h => str_truthy (authorization h)
     | None => false
     end.

(** *** Registry root fetcher *)

Definition includes_file (entry : string * Sha) : RegistryFile :=
  let '(n, val) := entry in
  {| key := replace n (sha256 val) "%hash%"; file_sha256 := sha256 val |}.

Definition provider_file (entry : string * Sha) : RegistryFile :=
  let '(k, val) := entry in
  {| key := k; file_sha256 := sha256 val |}.

(** [m[key] = sha] on an object literal whose values are strings: the
    assignment of a string to [__proto__] changes nothing. *)
Definition hash_set (k sha : string) (m : gmap string string)
  : gmap string string :=
  if String.eqb k "__proto__" then m else <[k := sha]> m.

(** [for (const [key, val] of Object.entries(o)) m[key] = val.sha256] *)
Definition merge_providers (o : Dict Sha) (m : gmap string string)
  : gmap string string :=
  fold_left (fun acc entry => hash_set (fst entry) (sha256 (snd entry)) acc) o m.

Definition registry_meta_of (r : PackageMeta) : RegistryMeta :=
  {| rm_packages := pm_packages r;
     includesFiles := map includes_file <$> pm_includes r;
     rm_providersUrl :=
       if str_truthy (pm_providers_url r) then pm_providers_url r else None;
     files := map provider_file <$> pm_provider_includes r;
     rm_providerPackages :=
       match pm_providers r with
       | Some o => merge_providers o ∅
       | None => ∅
       end |}.

Definition registry_meta_failure (regUrl : string) (err : Exn)
  : M (option RegistryMeta) :=
  let e := fields err in
  if bool_decide (code e = Some "ETIMEDOUT") then
    let* _ := log "debug" "Packagist timeout" in ret None
  else if bool_decide (statusCode e = Some 401)
          || bool_decide (statusCode e = Some 403) then
    let* _ := log "debug" "Unauthorized Packagist repository" in ret None
  else if bool_decide (statusCode e = Some 404)
          && str_truthy (url e)
          && endsWith (default "" (url e)) "/packages.json" then
    let* _ := log "debug" "Packagist repository not found" in ret None
  else
    let* _ := log "warn" "Packagist download error" in ret None.

Definition getRegistryMeta (regUrl : string) : M (option RegistryMeta) :=
  try_catch
    (let u := URL_resolve env (with_trailing_slash regUrl) "packages.json" in
     let opts := getHostOpts u in
     let* r := request (root_document env) u opts in
     ret (Some (registry_meta_of r)))
    (registry_meta_failure regUrl).

(** *** Shard file resolver *)

Definition cacheMinutes_files : Z := 1440.

Definition getPackagistFile (regUrl : string) (file : RegistryFile)
  : M PackagistFile :=
  let fileName := replace (key file) "%hash%" (file_sha256 file) in
  let opts := getHostOpts regUrl in
  if has_credentials opts then
    request (shard_document env) (regUrl ++ "/" ++ fileName) opts
  else
    let cacheKey := regUrl ++ key file in
    let* cachedResult := cache_get_file cacheKey in
    let fetch_and_store : M PackagistFile :=
      let* r := request (shard_document env) (regUrl ++ "/" ++ fileName) opts in
      let* _ := cache_set_file cacheKey
                  {| res := r; rec_sha256 := file_sha256 file |}
                  cacheMinutes_files in
      ret r in
    match cachedResult with
    | Some r =>
        if String.eqb (rec_sha256 r) (file_sha256 file) then ret (res r)
        else fetch_and_store
    | None => fetch_and_store
    end.

(** *** Registry resolution cache *)

Definition repo_key (regUrl : string) : string := "packagist-" ++ regUrl.

(** [await delay(200)]: the other tasks run. *)
Definition delay (ms : Z) : M unit :=
  let* _ := emit (Delay ms) in
  fun w => (Ok tt, {| repoCache := other_tasks env (repoCache w);
                      files_ns := files_ns w; org_ns := org_ns w;
                      requests := requests w; trace := trace w |}).

Definition entry_value (e : option RepoEntry) : Nullable AllPackages :=
  match e with
  | Some (Resolved v) => Val v
  | Some Failed => Null
  | _ => Undefined
  end.

(** [while (repoCacheResult === 'pending') { await delay(200); ... }] *)
Fixpoint wait_while_pending (polls : nat) (regUrl : string)
  (repoCacheResult : option RepoEntry) : M (Nullable AllPackages) :=
  match repoCacheResult with
  | Some Pending =>
      match polls with
      | O => fun w => (Hang, w)
      | S polls' =>
          let* _ := delay 200 in
          let* again := repo_read (repo_key regUrl) in
          wait_while_pending polls' regUrl again
      end
  | other => ret (entry_value other)
  end.

(** [if (repoCacheResult)]: the string and an object are truthy, [null]
    and [undefined] are not. *)
Definition entry_truthy (e : option RepoEntry) : bool :=
  match e with
  | Some Pending | Some (Resolved _) => true
  | Some Failed | None => false
  end.

(** The body of [for (const res of resolvedFiles)]. *)
Definition merge_shard (m : gmap string string) (r : PackagistFile)
  : M (gmap string string) :=
  match providers r with
  | Some o => ret (merge_providers o m)
  | None => throw (Raised TypeError)
  end.

(** [for (const [key, val] of Object.entries(res.packages))] *)
Definition merge_includes (o : Dict (option RawVersions)) (m : Includes)
  : Includes :=
  fold_left
    (fun acc entry =>
       includes_set (fst entry)
         (set_name (fst entry) (extractDepReleases (snd entry))) acc)
    o m.

(** The body of [for (const file of includesFiles)]. *)
Definition resolve_include (regUrl : string) (m : Includes)
  (file : RegistryFile) : M Includes :=
  let* r := getPackagistFile regUrl file in
  match pf_packages r with
  | Some o => ret (merge_includes o m)
  | None => ret m
  end.

Definition getAllPackages (regUrl : string) : M (Nullable AllPackages) :=
  let* repoCacheResult := repo_read (repo_key regUrl) in
  if entry_truthy repoCacheResult then
    wait_while_pending (poll_budget env) regUrl repoCacheResult
  else
    let* _ := repo_write (repo_key regUrl) Pending in
    let* registryMeta := getRegistryMeta regUrl in
    match registryMeta with
    | None =>
        let* _ := repo_write (repo_key regUrl) Failed in
        ret Null
    | Some meta =>
        let* providerPackages :=
          match files meta with
          | Some fs =>
              let* resolvedFiles := all (getPackagistFile regUrl) fs in
              for_each resolvedFiles merge_shard (rm_providerPackages meta)
          | None => ret (rm_providerPackages meta)
          end in
        let* includesPackages :=
          match includesFiles meta with
          | Some fs => for_each fs (resolve_include regUrl) ∅
          | None => ret ∅
          end in
        let allPackages :=
          {| packages := rm_packages meta;
             providersUrl := rm_providersUrl meta;
             providerPackages := providerPackages;
             includesPackages := includesPackages |} in
        let* _ := repo_write (repo_key regUrl) (Resolved allPackages) in
        ret (Val allPackages)
    end.

(** *** Package lookup resolver *)

(** [o[name]] on a parsed object whose values are raw version maps or
    [null]: [None] is [null] or [undefined].  For a name that [o] does
    not have but inherits, the value is a member of [Object.prototype]:
    it is truthy and [Object.keys] of it is empty, which is all that the
    callers use, so it is given as the empty version map. *)
Definition versions_of (o : Dict (option RawVersions)) (n : string)
  : option RawVersions :=
  match get o n with
  | Some v => v
  | None => if inherits n then Some [] else None
  end.

(** A result of the default-registry lookup as a value. *)
Definition as_value (r : Nullable ReleaseResult) : Nullable Value :=
  match r with
  | Val d => Val (Dep d)
  | Null => Null
  | Undefined => Undefined
  end.

Definition of_option {A} (o : option A) : Nullable A :=
  match o with Some a => Val a | None => Null end.

Definition cacheMinutes_org : Z := 10.

Definition packagistOrgLookup (n : string) : M (Nullable ReleaseResult) :=
  let* cachedResult := cache_get_org n in
  match cachedResult with
  | Some (Some d) => ret (Val d)
  | _ =>
      let regUrl := default_registry in
      let pkgUrl := URL_resolve env regUrl ("/p/" ++ n ++ ".json") in
      let* body := request (package_document env) pkgUrl no_opts in
      let* r := match pb_packages body with
                | Some o => ret (versions_of o n)
                | None => throw (Raised TypeError)
                end in
      let* dep := match r with
                  | Some vs =>
                      let dep := set_name n (extractDepReleases (Some vs)) in
                      let* _ := log "trace" "dep" in
                      ret (Some dep)
                  | None => ret None
                  end in
      let* _ := cache_set_org n dep cacheMinutes_org in
      ret (of_option dep)
  end.

Definition is_server_error (sc : option Z) : bool :=
  match sc with
  | Some n => negb (n =? 0) && (500 <=? n) && (n <? 600)
  | None => false
  end.

(** The [catch] clause of [packageLookup]. *)
Definition lookup_failure (n : string) (err : Exn)
  : M (Nullable Value) :=
  let e := fields err in
  let unknown : M (Nullable Value) :=
    let* _ := log "warn" "packagist registry failure: Unknown error" in
    ret Null in
  if bool_decide (statusCode e = Some 404)
     || bool_decide (code e = Some "ENOTFOUND") then
    let* _ := log "debug" "Dependency lookup failure: not found" in
    let* _ := log "debug" "" in
    ret Null
  else if bool_decide (host e = Some "packagist.org") then
    if bool_decide (code e = Some "ECONNRESET")
       || bool_decide (code e = Some "ETIMEDOUT") then
      throw (DatasourceError err)
    else if is_server_error (statusCode e) then
      throw (DatasourceError err)
    else unknown
  else unknown.

(** The provider layout: the per-package document named by the
    template. *)
Definition provider_lookup (regUrl n hash : string) (all : AllPackages)
  : M (Nullable Value) :=
  match providersUrl all with
  | None => throw (Raised TypeError)
  | Some template =>
      let pkgUrl :=
        URL_resolve env regUrl
          (replace (replace template "%package%" n) "%hash%" hash) in
      let opts := getHostOpts regUrl in
      let* body := request (package_document env) pkgUrl opts in
      let* versions := match pb_packages body with
                       | Some o => ret (versions_of o n)
                       | None => throw (Raised TypeError)
                       end in
      let dep := set_name n (extractDepReleases versions) in
      let* _ := log "trace" "dep" in
      ret (Val (Dep dep))
  end.

(** The lookup in an assembled view, after [getAllPackages].  Where
    [includesPackages[name]] is falsy, [name] is not a name that objects
    inherit (those are always found there), so [providerPackages[name]]
    is an own property or [undefined]. *)
Definition lookup_in (regUrl n : string) (all : AllPackages)
  : M (Nullable Value) :=
  match packages all ≫= (fun o => versions_of o n) with
  | Some vs => ret (Val (Dep (set_name n (extractDepReleases (Some vs)))))
  | None =>
      match includes_get (includesPackages all) n with
      | Some found => ret (Val found)
      | None =>
          match providerPackages all !! n with
          | Some hash =>
              if str_truthy (Some hash)
              then provider_lookup regUrl n hash all
              else ret Null
          | None => ret Null
          end
      end
  end.

(** The [try] block of [packageLookup]. *)
Definition lookup_attempt (regUrl n : string) : M (Nullable Value) :=
  if String.eqb regUrl default_registry then
    let* packagistResult := packagistOrgLookup n in
    ret (as_value packagistResult)
  else
    let* allPackages := getAllPackages regUrl in
    match allPackages with
    | Val all => lookup_in regUrl n all
    | _ => ret Null
    end.

Definition packageLookup (regUrl n : string) : M (Nullable Value) :=
  try_catch (lookup_attempt regUrl n) (lookup_failure n).

(** *** Entry point *)

(** [is.nonEmptyArray(registryUrls) ? registryUrls : [...]] *)
Definition registries_of (registryUrls : option (list string)) : list string :=
  match registryUrls with
  | Some (r :: rs) => r :: rs
  | _ => [default_registry]
  end.

(** The loop of [getReleases], from the current value of [res]. *)
Fixpoint try_registries (lookupName : string) (r : Nullable Value)
  (registries : list string) : M (Nullable Value) :=
  match registries with
  | [] => ret r
  | regUrl :: rest =>
      let* r' := packageLookup regUrl lookupName in
      if truthy r' then ret r' else try_registries lookupName r' rest
  end.

Definition getReleases (lookupName : string)
  (registryUrls : option (list string)) : M (Nullable Value) :=
  let* _ := log "trace" ("getReleases(" ++ lookupName ++ ")") in
  try_registries lookupName Undefined (registries_of registryUrls).

End Datasource.

(** ** Vocabulary of the statements *)

(** The URL of a shard: [regUrl + '/' + fileName]. *)
Definition shard_url (regUrl : string) (file : RegistryFile) : string :=
  regUrl ++ "/" ++ replace (key file) "%hash%" (file_sha256 file).

(** The answer of the transport as the outcome of the [await]. *)
Definition answered {A} (a : JsError + A) : Outcome A :=
  match a with
  | inl e => Throw (Raised e)
  | inr r => Ok r
  end.

(** A record of the persistent cache under the key of the shard whose
    stored hash is the requested one. *)
Definition fresh_record (regUrl : string) (file : RegistryFile) (w : World)
  : Prop :=
  exists r ttl, files_ns w !! (regUrl ++ key file) = Some (r, ttl)
                /\ rec_sha256 r = file_sha256 file.

(** The URL of the root document of a registry. *)
Definition root_url (env : Env) (regUrl : string) : string :=
  URL_resolve env (with_trailing_slash regUrl) "packages.json".

(** The URL of the per-package document of the default registry. *)
Definition org_url (env : Env) (n : string) : string :=
  URL_resolve env default_registry ("/p/" ++ n ++ ".json").

(** The flat entry of a package in an assembled view, when it has one
    that is not [null]. *)
Definition flat_entry (all : AllPackages) (n : string) : option RawVersions :=
  match packages all with
  | Some o => versions_of o n
  | None => None
  end.

(** The URL of the per-package document of the provider layout. *)
Definition provider_url (env : Env) (regUrl template n hash : string) : string :=
  URL_resolve env regUrl
    (replace (replace template "%package%" n) "%hash%" hash).

(** The classes of errors of the lookup policy. *)
Definition not_found (e : JsError) : Prop :=
  statusCode e = Some 404 \/ code e = Some "ENOTFOUND".

Definition from_default_registry (e : JsError) : Prop :=
  host e = Some "packagist.org".

Definition transport_failure (e : JsError) : Prop :=
  code e = Some "ECONNRESET" \/ code e = Some "ETIMEDOUT"
  \/ exists s, statusCode e = Some s /\ 500 <= s <= 599.

(** The world after one more event. *)
Definition logged (w : World) (events : list Event) : World :=
  {| repoCache := repoCache w; files_ns := files_ns w; org_ns := org_ns w;
     requests := requests w; trace := trace w ++ events |}.

(** The world after the lookups of [n] in the registries [regs], one
    after the other. *)
Definition world_after (env : Env) (n : string) (regs : list string)
  (w : World) : World :=
  fold_left (fun w' regUrl => snd (packageLookup env regUrl n w')) regs w.

(** Every registry of [regs] answers [null], each in the world the
    earlier lookups left. *)
Definition all_soft_fail (env : Env) (n : string) (regs : list string)
  (w : World) : Prop :=
  forall i regUrl,
    regs !! i = Some regUrl ->
    fst (packageLookup env regUrl n (world_after env n (take i regs) w))
    = Ok Null.

(** [w'] is a later world than [w]: events were only added, requests
    only counted. *)
Definition extends (w w' : World) : Prop :=
  (exists rest, trace w' = (trace w ++ rest)%list)
  /\ (requests w <= requests w')%nat.

(** A computation that only adds events and requests. *)
Definition appends {A} (m : M A) : Prop :=
  forall w, extends w (snd (m w)).

(** The world without the entry of a registry in [global.repoCache]. *)
Definition forget (regUrl : string) (w : World) : World :=
  {| repoCache := delete (repo_key regUrl) (repoCache w);
     files_ns := files_ns w; org_ns := org_ns w;
     requests := requests w; trace := trace w |}.

(** The character [c] occurs in [s]. *)
Fixpoint has_char (c : ascii) (s : string) : bool :=
  match s with
  | EmptyString => false
  | String d s' => Ascii.eqb d c || has_char c s'
  end.

(** A computation that leaves [global.repoCache] as it is. *)
Definition keeps_repo {A} (m : M A) : Prop :=
  forall w, repoCache (snd (m w)) = repoCache w.

(** What [getAllPackages] does after a successful root fetch. *)
Definition assembly (env : Env) (regUrl : string) (meta : RegistryMeta)
  : M (Nullable AllPackages) :=
  let* providerPackages :=
    match files meta with
    | Some fs =>
        let* resolvedFiles := all (getPackagistFile env regUrl) fs in
        for_each resolvedFiles merge_shard (rm_providerPackages meta)
    | None => ret (rm_providerPackages meta)
    end in
  let* includesPackages :=
    match includesFiles meta with
    | Some fs => for_each fs (resolve_include env regUrl) ∅
    | None => ret ∅
    end in
  let allPackages :=
    {| packages := rm_packages meta;
       providersUrl := rm_providersUrl meta;
       providerPackages := providerPackages;
       includesPackages := includesPackages |} in
  let* _ := repo_write (repo_key regUrl) (Resolved allPackages) in
  ret (Val allPackages).

(** The world with the entry of a registry set. *)
Definition with_entry (regUrl : string) (e : RepoEntry) (w : World) : World :=
  {| repoCache := <[repo_key regUrl := e]> (repoCache w);
     files_ns := files_ns w; org_ns := org_ns w;
     requests := requests w; trace := trace w |}.

(** A computation that makes at most [k] requests. *)
Definition costs {A} (k : nat) (m : M A) : Prop :=
  forall w, (requests (snd (m w)) <= requests w + k)%nat.

(** The events of the persistent cache. *)
Definition cache_event (e : Event) : bool :=
  match e with
  | CacheGet _ _ | CacheSet _ _ _ => true
  | _ => false
  end.

(** A computation that never reads or writes the persistent cache. *)
Definition cache_free {A} (m : M A) : Prop :=
  forall w,
    files_ns (snd (m w)) = files_ns w
    /\ org_ns (snd (m w)) = org_ns w
    /\ exists rest,
         trace (snd (m w)) = (trace w ++ rest)%list
         /\ forallb (fun e => negb (cache_event e)) rest = true.

(** ** A small network *)

Module Demo.

Definition versions : RawVersions :=
  [("v1.0.0", {| rr_homepage := Some "https://pkg.example";
                 rr_source := Some {| src_url := Some "https://git.example/pkg" |};
                 rr_time := Some "2020-01-01T00:00:00+00:00" |})].

Definition meta : PackageMeta :=
  {| pm_includes := None;
     pm_packages := Some [("vendor/pkg", Some versions)];
     pm_provider_includes := None;
     pm_providers := Some [("vendor/pkg", {| sha256 := "abc" |})];
     pm_providers_url := Some "/p/%package%$%hash%.json" |}.

Definition not_found : JsError :=
  {| code := None; statusCode := Some 404;
     url := Some "https://a.example/packages.json";
     host := Some "a.example" |}.

Definition timed_out (h : string) : JsError :=
  {| code := Some "ETIMEDOUT"; statusCode := None;
     url := None; host := Some h |}.

Definition rules (hostType u : string) : HostRule :=
  if String.eqb u "https://private.example"
  then {| username := Some "user"; password := Some "secret" |}
  else if String.eqb u "https://partial.example"
  then {| username := Some "user"; password := None |}
  else {| username := None; password := None |}.

(** [b.example] publishes [meta]; [flaky.example] times out on the
    first request of the process and publishes [meta] afterwards; every
    other registry answers 404. *)
Definition root (i : nat) (u : string) (_ : HttpOptions)
  : JsError + PackageMeta :=
  if String.eqb u "https://b.example/packages.json" then inr meta
  else if String.eqb u "https://flaky.example/packages.json" then
    match i with
    | O => inl (timed_out "flaky.example")
    | S _ => inr meta
    end
  else inl not_found.

Definition shard (_ : nat) (_ : string) (_ : HttpOptions)
  : JsError + PackagistFile :=
  inr {| providers := Some [("vendor/other", {| sha256 := "def" |})];
         pf_packages := None |}.

Definition package (_ : nat) (u : string) (_ : HttpOptions)
  : JsError + PackageBody :=
  if String.eqb u "https://packagist.org/p/vendor/down.json"
  then inl (timed_out "packagist.org")
  else if String.eqb u "https://packagist.org/p/vendor/pkg.json"
  then inr {| pb_packages := Some [("vendor/pkg", Some versions)] |}
  else inr {| pb_packages := Some [] |}.

(** [url.resolve] on a base without path and a relative reference. *)
Definition resolve (from to : string) : string := from ++ to.

Definition env : Env :=
  {| hostRules_find := rules;
     URL_resolve := resolve;
     root_document := root;
     shard_document := shard;
     package_document := package;
     other_tasks := fun c => c;
     poll_budget := 3 |}.

Definition start : World :=
  {| repoCache := ∅; files_ns := ∅; org_ns := ∅;
     requests := 0; trace := [] |}.

Definition shard_file : RegistryFile :=
  {| key := "p/provider-latest$%hash%.json"; file_sha256 := "0123" |}.

(** The view of [b.example] and of [flaky.example] once assembled. *)
Definition view : AllPackages :=
  {| packages := Some [("vendor/pkg", Some versions)];
     providersUrl := Some "/p/%package%$%hash%.json";
     providerPackages := {["vendor/pkg" := "abc"]};
     includesPackages := ∅ |}.

(** The world after the assembly of [b.example] from [start]. *)
Definition assembled : World :=
  {| repoCache := {["packagist-https://b.example" := Resolved view]};
     files_ns := ∅; org_ns := ∅; requests := 1;
     trace := [HttpGet "https://b.example/packages.json" no_opts] |}.

End Demo.

(** ** Gitea: commit statuses *)

Module Gitea.

(** The members of [BranchStatus] that the status mappings use. *)
Inductive BranchStatus : Type :=
| green
| yellow
| red.

Record CommitStatus := {
  cs_id : Z;
  status : string;
  context : string;
  description : string;
  target_url : string;
  created_at : string;
}.

Record CombinedCommitStatus := {
  worstStatus : option string;
  statuses : list CommitStatus;
}.

Definition commitStatusStates : list string :=
  ["unknown"; "success"; "pending"; "warning"; "failure"; "error"].

(** [xs.indexOf(x)], from position [i]: [-1] when [x] is not there. *)
Fixpoint indexOf_from (i : Z) (xs : list string) (x : string) : Z :=
  match xs with
  | [] => -1
  | y :: rest => if String.eqb y x then i else indexOf_from (i + 1) rest x
  end.

Definition indexOf (xs : list string) (x : string) : Z := indexOf_from 0 xs x.

(** [xs[i]]: [undefined] out of range. *)
Definition at_index (xs : list string) (i : Z) : option string :=
  if i <? 0 then None else xs !! Z.to_nat i.

Definition giteaToRenovateStatusMapping : Dict BranchStatus :=
  [("unknown", yellow); ("success", green); ("pending", yellow);
   ("warning", red); ("failure", red); ("error", red)].

Definition renovateToGiteaStatusMapping (b : BranchStatus) : string :=
  match b with
  | green => "success"
  | yellow => "pending"
  | red => "failure"
  end.

(** The names every object inherits from [Object.prototype]: [ret[name]]
    is then a function (or the prototype itself), which is truthy and has
    no [created_at]. *)
Definition Object_prototype_names : list string :=
  ["constructor"; "__defineGetter__"; "__defineSetter__"; "hasOwnProperty";
   "__lookupGetter__"; "__lookupSetter__"; "isPrototypeOf";
   "propertyIsEnumerable"; "toString"; "valueOf"; "__proto__";
   "toLocaleString"].

Definition inherited (k : string) : bool :=
  existsb (String.eqb k) Object_prototype_names.

(** [ret[k] = v]: an existing property keeps its place, a new one comes
    last. *)
Fixpoint set {V} (o : Dict V) (k : string) (v : V) : Dict V :=
  match o with
  | [] => [(k, v)]
  | (k', v') :: rest =>
      if String.eqb k' k then (k', v) :: rest else (k', v') :: set rest k v
  end.

(** The value of a decimal digit. *)
Definition digit (c : ascii) : option N :=
  let n := N_of_ascii c in
  if (48 <=? n)%N && (n <=? 57)%N then Some (n - 48)%N else None.

Fixpoint digits (acc : N) (s : string) : option N :=
  match s with
  | EmptyString => Some acc
  | String c s' =>
      match digit c with
      | Some d => digits (acc * 10 + d)%N s'
      | None => None
      end
  end.

(** The keys that are array indices: the canonical decimal strings of
    the integers below [2^32 - 1]. *)
Definition array_index (k : string) : option N :=
  match k with
  | EmptyString => None
  | String c rest =>
      if Ascii.eqb c "0" && negb (String.eqb rest "") then None
      else if (10 <? String.length k)%nat then None
      else match digits 0 k with
           | Some n => if (n <? 4294967295)%N then Some n else None
           | None => None
           end
  end.

Fixpoint insert_by_index {V} (e : N * V) (sorted : list (N * V)) : list (N * V) :=
  match sorted with
  | [] => [e]
  | e' :: rest =>
      if (fst e <? fst e')%N then e :: e' :: rest
      else e' :: insert_by_index e rest
  end.

(** [Object.values(o)]: the properties whose key is an array index come
    first, by ascending index, then the others in the order in which
    they were created. *)
Fixpoint Object_values_split {V} (o : Dict V) : list (N * V) * list V :=
  match o with
  | [] => ([], [])
  | (k, v) :: rest =>
      let '(indexed, named) := Object_values_split rest in
      match array_index k with
      | Some n => (insert_by_index (n, v) indexed, named)
      | None => (indexed, v :: named)
      end
  end.

Definition Object_values {V} (o : Dict V) : list V :=
  let '(indexed, named) := Object_values_split o in
  (map snd indexed ++ named)%list.

Section Statuses.

(** The time value of [new Date(s)]; [None] is an invalid date. *)
Variable time_value : string -> option Z.

(** [new Date(a) < new Date(b)]: false when either date is invalid. *)
Definition date_lt (a b : option Z) : bool :=
  match a, b with
  | Some x, Some y => x <? y
  | _, _ => false
  end.

(** The body of the loop of [filterStatus]. *)
Definition keep_latest (ret : Dict CommitStatus) (i : CommitStatus)
  : Dict CommitStatus :=
  match get ret (context i) with
  | Some kept =>
      if date_lt (time_value (created_at kept)) (time_value (created_at i))
      then set ret (context i) i
      else ret
  | None =>
      if inherited (context i) then ret else set ret (context i) i
  end.

Definition filterStatus (data : list CommitStatus) : list CommitStatus :=
  Object_values (fold_left keep_latest data []).

(** [getCombinedCommitStatus], from the body of the response on. *)
Definition combined (body : list CommitStatus) : CombinedCommitStatus :=
  let worstState :=
    fold_left (fun worst cs => Z.max worst (indexOf commitStatusStates (status cs)))
      (filterStatus body) 0 in
  {| worstStatus := at_index commitStatusStates worstState;
     statuses := body |}.

End Statuses.

End Gitea.

(** ** More of the small network *)

Module Sample.

(** Three versions: the second has the last homepage, the first the only
    source URL. *)
Definition first_release : RawRelease :=
  {| rr_homepage := Some "https://old.example";
     rr_source := Some {| src_url := Some "https://git.example/pkg" |};
     rr_time := Some "2019-01-01T00:00:00+00:00" |}.

Definition second_release : RawRelease :=
  {| rr_homepage := Some "https://new.example";
     rr_source := Some {| src_url := None |};
     rr_time := Some "2020-01-01T00:00:00+00:00" |}.

Definition third_release : RawRelease :=
  {| rr_homepage := Some ""; rr_source := None; rr_time := None |}.

Definition history : RawVersions :=
  [("1.0.0", first_release); ("v1.1.0", second_release);
   ("dev-master", third_release)].

(** [shards.example] names one provider shard, whose fetch fails;
    [nourl.example] lists a package by provider hash and publishes no
    [providers-url]. *)
Definition shards_meta : PackageMeta :=
  {| pm_includes := None;
     pm_packages := None;
     pm_provider_includes :=
       Some [("p/provider-latest$%hash%.json", {| sha256 := "0123" |})];
     pm_providers := None;
     pm_providers_url := Some "/p/%package%$%hash%.json" |}.

Definition nourl_meta : PackageMeta :=
  {| pm_includes := None;
     pm_packages := None;
     pm_provider_includes := None;
     pm_providers := Some [("vendor/pkg", {| sha256 := "abc" |})];
     pm_providers_url := None |}.

Definition server_error : JsError :=
  {| code := None; statusCode := Some 500; url := None;
     host := Some "shards.example" |}.

Definition root (i : nat) (u : string) (opts : HttpOptions)
  : JsError + PackageMeta :=
  if String.eqb u "https://shards.example/packages.json" then inr shards_meta
  else if String.eqb u "https://nourl.example/packages.json" then inr nourl_meta
  else Demo.root i u opts.

Definition shard (_ : nat) (_ : string) (_ : HttpOptions)
  : JsError + PackagistFile :=
  inl server_error.

Definition env : Env :=
  {| hostRules_find := Demo.rules;
     URL_resolve := Demo.resolve;
     root_document := root;
     shard_document := shard;
     package_document := Demo.package;
     other_tasks := fun c => c;
     poll_budget := 3 |}.

Definition nourl_view : AllPackages :=
  {| packages := None;
     providersUrl := None;
     providerPackages := {["vendor/pkg" := "abc"]};
     includesPackages := ∅ |}.

Definition nourl_assembled : World :=
  {| repoCache := {["packagist-https://nourl.example" := Resolved nourl_view]};
     files_ns := ∅; org_ns := ∅; requests := 1;
     trace := [HttpGet "https://nourl.example/packages.json" no_opts] |}.

(** [slow.example] is being resolved by another task.  During the first
    wait of a caller that task is still fetching, and a third task
    starts on [other.example]; during the second wait the resolution of
    [slow.example] fails. *)
Definition slow_tasks (c : gmap string RepoEntry) : gmap string RepoEntry :=
  match c !! "packagist-https://other.example" with
  | Some _ => <["packagist-https://slow.example" := Failed]> c
  | None => <["packagist-https://other.example" := Pending]> c
  end.

Definition slow_env : Env :=
  {| hostRules_find := Demo.rules;
     URL_resolve := Demo.resolve;
     root_document := root;
     shard_document := shard;
     package_document := Demo.package;
     other_tasks := slow_tasks;
     poll_budget := 5 |}.

Definition slow_start : World :=
  {| repoCache := {["packagist-https://slow.example" := Pending]};
     files_ns := ∅; org_ns := ∅; requests := 0; trace := [] |}.

(** [mirror.example] has one provider shard, which lists [vendor/lib],
    one includes shard, which carries [vendor/inc], and a per-package
    document for [vendor/lib]. *)
Definition mirror_meta : PackageMeta :=
  {| pm_includes := Some [("include/all$aaa.json", {| sha256 := "aaa" |})];
     pm_packages := None;
     pm_provider_includes :=
       Some [("p/provider-latest$%hash%.json", {| sha256 := "0123" |})];
     pm_providers := None;
     pm_providers_url := Some "/p/%package%$%hash%.json" |}.

Definition mirror_root (i : nat) (u : string) (opts : HttpOptions)
  : JsError + PackageMeta :=
  if String.eqb u "https://mirror.example/packages.json" then inr mirror_meta
  else Demo.root i u opts.

Definition mirror_shard (_ : nat) (u : string) (_ : HttpOptions)
  : JsError + PackagistFile :=
  if String.eqb u "https://mirror.example/p/provider-latest$0123.json"
  then inr {| providers := Some [("vendor/lib", {| sha256 := "def" |})];
              pf_packages := None |}
  else if String.eqb u "https://mirror.example/include/all$aaa.json"
  then inr {| providers := None;
              pf_packages := Some [("vendor/inc", Some Demo.versions)] |}
  else inl server_error.

Definition mirror_package (i : nat) (u : string) (opts : HttpOptions)
  : JsError + PackageBody :=
  if String.eqb u "https://mirror.example/p/vendor/lib$def.json"
  then inr {| pb_packages := Some [("vendor/lib", Some Demo.versions)] |}
  else Demo.package i u opts.

Definition mirror_env : Env :=
  {| hostRules_find := Demo.rules;
     URL_resolve := Demo.resolve;
     root_document := mirror_root;
     shard_document := mirror_shard;
     package_document := mirror_package;
     other_tasks := fun c => c;
     poll_budget := 3 |}.

Definition mirror_view : AllPackages :=
  {| packages := None;
     providersUrl := Some "/p/%package%$%hash%.json";
     providerPackages := {["vendor/lib" := "def"]};
     includesPackages :=
       includes_set "vendor/inc"
         (set_name "vendor/inc" (extractDepReleases (Some Demo.versions))) ∅ |}.

(** Two statuses of one context and one of another; the dates are
    written as their time values. *)
Definition time_value (s : string) : option Z :=
  Z.of_N <$> Gitea.digits 0 s.

Definition ci_failed : Gitea.CommitStatus :=
  {| Gitea.cs_id := 1; Gitea.status := "failure"; Gitea.context := "ci";
     Gitea.description := ""; Gitea.target_url := "";
     Gitea.created_at := "100" |}.

Definition ci_passed : Gitea.CommitStatus :=
  {| Gitea.cs_id := 2; Gitea.status := "success"; Gitea.context := "ci";
     Gitea.description := ""; Gitea.target_url := "";
     Gitea.created_at := "200" |}.

Definition lint_pending : Gitea.CommitStatus :=
  {| Gitea.cs_id := 3; Gitea.status := "pending"; Gitea.context := "lint";
     Gitea.description := ""; Gitea.target_url := "";
     Gitea.created_at := "150" |}.

Definition statuses : list Gitea.CommitStatus :=
  [ci_failed; lint_pending; ci_passed].

End Sample.

(** * Properties *)

(** ** Release normalizer *)

Lemma map_releases_snd dep vs :
  snd (map_releases dep vs)
  = map (fun kv => {| version := strip_leading_v (fst kv);
                      gitRef := fst kv;
                      releaseTimestamp := rr_time (snd kv) |}) vs.
Proof.
  revert dep. induction vs as [|[k r] vs IH]; intros dep; simpl; [done|].
  specialize (IH (fst (release_of dep (k, r)))).
  simpl in IH. destruct (map_releases _ vs) as [d rs]. simpl in *.
  by rewrite IH.
Qed.

Lemma strip_leading_v_spec k :
  strip_leading_v k = if String.prefix "v" k then Js.drop 1 k else k.
Proof.
  destruct k as [|c k]; [done|].
  change (String.prefix "v" (String c k))
    with (match ascii_dec "v" c with
          | left _ => String.prefix "" k
          | right _ => false
          end).
  unfold strip_leading_v.
  destruct (Ascii.eqb_spec c "v") as [->|Hc].
  - destruct (ascii_dec "v" "v"); [by destruct k|done].
  - destruct (ascii_dec "v" c); [by subst|done].
Qed.

(** C5.  [extractDepReleases] yields exactly one release per version key,
    in the order of the keys: its version is the key without one leading
    [v] (when there is one), its [gitRef] is the key itself and its
    [releaseTimestamp] is the [time] of the entry, unchanged. *)
Theorem extractDepReleases_one_release_per_key (vs : RawVersions) :
  exists rs,
    releases (extractDepReleases (Some vs)) = Some rs
    /\ length rs = length vs
    /\ rs = map (fun kv =>
                   {| version := if String.prefix "v" (fst kv)
                                 then Js.drop 1 (fst kv) else fst kv;
                      gitRef := fst kv;
                      releaseTimestamp := rr_time (snd kv) |}) vs.
Proof.
  unfold extractDepReleases.
  pose proof (map_releases_snd
                {| name := None; releases := None;
                   homepage := None; sourceUrl := None |} vs) as H.
  destruct (map_releases _ vs) as [dep rs]. simpl in *. subst rs.
  eexists. split; [reflexivity|]. split.
  - by rewrite length_map.
  - apply map_ext. intros [k r]. simpl. by rewrite strip_leading_v_spec.
Qed.

(** The two keys of the specification's example. *)
Example extractDepReleases_v_prefix :
  releases (extractDepReleases
              (Some [("v2.1.0", {| rr_homepage := None; rr_source := None;
                                   rr_time := Some "2020-01-01" |});
                     ("1.0.0", {| rr_homepage := None; rr_source := None;
                                  rr_time := None |})]))
  = Some [{| version := "2.1.0"; gitRef := "v2.1.0";
             releaseTimestamp := Some "2020-01-01" |};
          {| version := "1.0.0"; gitRef := "1.0.0";
             releaseTimestamp := None |}].
Proof. reflexivity. Qed.

(** ** Registry root fetcher *)

Ltac run :=
  repeat (unfold bind, ret, throw, try_catch, log, emit, request,
            repo_read, repo_write, cache_get_file, cache_set_file,
            cache_get_org, cache_set_org; simpl).

Lemma registry_meta_failure_null regUrl err w :
  exists level msg,
    registry_meta_failure regUrl err w
    = (Ok None, {| repoCache := repoCache w; files_ns := files_ns w;
                   org_ns := org_ns w; requests := requests w;
                   trace := trace w ++ [Log level msg] |}).
Proof.
  unfold registry_meta_failure.
  repeat match goal with
         | |- context [if ?b then _ else _] => destruct b
         end; run; eauto.
Qed.

(** C6.  [getRegistryMeta] never throws: whatever error the fetch of the
    root document raises (a timeout, 401 or 403, 404 on [packages.json],
    or anything else), the result is [null]; when the fetch succeeds the
    result is the projected meta. *)
Theorem getRegistryMeta_soft_failure (env : Env) (regUrl : string) (w : World) :
  let u := URL_resolve env (with_trailing_slash regUrl) "packages.json" in
  fst (getRegistryMeta env regUrl w)
  = match root_document env (requests w) u (getHostOpts env u) with
    | inl _ => Ok None
    | inr r => Ok (Some (registry_meta_of r))
    end.
Proof.
  intros u. unfold getRegistryMeta. fold u. run.
  destruct (root_document env (requests w) u (getHostOpts env u)) as [e|r];
    [|done].
  match goal with
  | |- fst (registry_meta_failure ?r ?x ?w') = _ =>
      destruct (registry_meta_failure_null r x w') as (l & m & ->)
  end.
  done.
Qed.

(** ** Shard file resolver *)



(** C2.  When the host rule of the registry URL yields an [auth] option or
    an [authorization] header, [getPackagistFile] only fetches the shard:
    the one new event is the request, no cache read or write is recorded,
    and both namespaces of the persistent cache are left as they were. *)
Theorem getPackagistFile_credentials_skip_cache
  (env : Env) (regUrl : string) (file : RegistryFile) (w : World) :
  let opts := getHostOpts env regUrl in
  (str_truthy (auth opts) = true
   \/ exists h, headers opts = Some h /\ str_truthy (authorization h) = true) ->
  let w' := snd (getPackagistFile env regUrl file w) in
  fst (getPackagistFile env regUrl file w)
  = answered (shard_document env (requests w) (shard_url regUrl file) opts)
  /\ trace w' = (trace w ++ [HttpGet (shard_url regUrl file) opts])%list
  /\ files_ns w' = files_ns w
  /\ org_ns w' = org_ns w.
Proof.
  intros opts H w'.
  assert (Hc : has_credentials opts = true).
  { unfold has_credentials. destruct H as [->|(h & -> & ->)]; [done|].
    by rewrite orb_true_r. }
  subst w'. unfold getPackagistFile. fold opts. rewrite Hc.
  unfold shard_url. run.
  by destruct (shard_document env (requests w) _ opts).
Qed.

(** The shard fetch of a request without credentials, step by step. *)
Lemma getPackagistFile_anonymous
  (env : Env) (regUrl : string) (file : RegistryFile) (w : World) :
  has_credentials (getHostOpts env regUrl) = false ->
  let opts := getHostOpts env regUrl in
  let k := regUrl ++ key file in
  let read := {| repoCache := repoCache w; files_ns := files_ns w;
                 org_ns := org_ns w; requests := requests w;
                 trace := trace w ++ [CacheGet files_namespace k] |} in
  let fetched := {| repoCache := repoCache w; files_ns := files_ns w;
                    org_ns := org_ns w; requests := S (requests w);
                    trace := trace w ++ [CacheGet files_namespace k;
                                         HttpGet (shard_url regUrl file) opts] |} in
  let miss :=
    match shard_document env (requests w) (shard_url regUrl file) opts with
    | inl e => (Throw (Raised e), fetched)
    | inr r =>
        (Ok r, {| repoCache := repoCache w;
                  files_ns := <[k := ({| res := r; rec_sha256 := file_sha256 file |},
                                      1440)]> (files_ns w);
                  org_ns := org_ns w; requests := S (requests w);
                  trace := trace w ++ [CacheGet files_namespace k;
                                       HttpGet (shard_url regUrl file) opts;
                                       CacheSet files_namespace k 1440] |})
    end in
  getPackagistFile env regUrl file w
  = match files_ns w !! k with
    | Some (r, _) =>
        if String.eqb (rec_sha256 r) (file_sha256 file)
        then (Ok (res r), read) else miss
    | None => miss
    end.
Proof.
  intros Hc opts k read fetched miss.
  unfold getPackagistFile. rewrite Hc.
  subst miss read fetched opts k. unfold shard_url, cacheMinutes_files.
  generalize (regUrl ++ "/" ++ replace (key file) "%hash%" (file_sha256 file)).
  generalize (regUrl ++ key file). generalize (getHostOpts env regUrl).
  intros opts k u. run.
  destruct (files_ns w !! k) as [[r ttl]|]; simpl.
  - destruct (String.eqb (rec_sha256 r) (file_sha256 file)); [done|]. simpl.
    destruct (shard_document env (requests w) u opts); simpl;
      by rewrite <- ?app_assoc.
  - destruct (shard_document env (requests w) u opts); simpl;
      by rewrite <- ?app_assoc.
Qed.


Lemma fresh_record_hit regUrl file w r ttl :
  files_ns w !! (regUrl ++ key file) = Some (r, ttl) ->
  String.eqb (rec_sha256 r) (file_sha256 file) = true <->
  fresh_record regUrl file w.
Proof.
  intros Hk. rewrite String.eqb_eq. split.
  - intros E. by exists r, ttl.
  - intros (r' & ttl' & Hk' & E). congruence.
Qed.

(** C3.  Without credentials, [getPackagistFile] issues no request exactly
    when the persistent cache holds, under the key [regUrl + key], a
    record whose hash is the requested one, and then returns the stored
    content; otherwise it fetches the shard once and, when the fetch
    answers, stores the answer with the requested hash for 1440 minutes
    under that key. *)
Theorem getPackagistFile_refetch_iff_hash_differs
  (env : Env) (regUrl : string) (file : RegistryFile) (w : World) :
  has_credentials (getHostOpts env regUrl) = false ->
  let opts := getHostOpts env regUrl in
  let k := regUrl ++ key file in
  let out := getPackagistFile env regUrl file w in
  (requests (snd out) = requests w <-> fresh_record regUrl file w)
  /\ (forall r ttl,
        files_ns w !! k = Some (r, ttl) ->
        rec_sha256 r = file_sha256 file ->
        fst out = Ok (res r)
        /\ trace (snd out) = (trace w ++ [CacheGet files_namespace k])%list
        /\ files_ns (snd out) = files_ns w)
  /\ (~ fresh_record regUrl file w ->
      requests (snd out) = S (requests w)
      /\ match shard_document env (requests w) (shard_url regUrl file) opts with
         | inr body =>
             fst out = Ok body
             /\ files_ns (snd out)
                = <[k := ({| res := body; rec_sha256 := file_sha256 file |},
                          1440)]> (files_ns w)
             /\ trace (snd out)
                = (trace w ++ [CacheGet files_namespace k;
                               HttpGet (shard_url regUrl file) opts;
                               CacheSet files_namespace k 1440])%list
         | inl e =>
             fst out = Throw (Raised e)
             /\ files_ns (snd out) = files_ns w
         end).
Proof.
  intros Hc opts k out.
  pose proof (getPackagistFile_anonymous env regUrl file w Hc) as Hrun.
  simpl in Hrun. fold opts k in Hrun. fold out in Hrun.
  destruct (files_ns w !! k) as [[r ttl]|] eqn:Hk.
  - pose proof (fresh_record_hit regUrl file w r ttl Hk) as Hhit.
    destruct (String.eqb (rec_sha256 r) (file_sha256 file)) eqn:E.
    + assert (Hf : fresh_record regUrl file w) by (by apply Hhit).
      rewrite Hrun. simpl. split; [done|]. split.
      * intros r' ttl' [= <- <-] _. done.
      * intros Hn. done.
    + assert (Hn : ~ fresh_record regUrl file w)
        by (intros H; apply Hhit in H; done).
      rewrite Hrun. split; [|split].
      * destruct (shard_document _ _ _ _); simpl; split; [lia|done|lia|done].
      * intros r' ttl' [= <- <-] E'. apply String.eqb_neq in E. done.
      * intros _. destruct (shard_document _ _ _ _); simpl; done.
  - assert (Hn : ~ fresh_record regUrl file w).
    { intros (r & ttl & Hk' & _). fold k in Hk'. congruence. }
    rewrite Hrun. split; [|split].
    + destruct (shard_document _ _ _ _); simpl; split; [lia|done|lia|done].
    + intros r' ttl' [=].
    + intros _. destruct (shard_document _ _ _ _); simpl; done.
Qed.

(** C9.  With only a username or only a password in the host rule,
    [getHostOpts] sets no option, and [getPackagistFile] takes the path of
    a public registry: it reads the persistent cache under
    [regUrl + key] first, and when that gives no record with the
    requested hash and the fetch answers, it writes the answer there. *)
Theorem getPackagistFile_partial_credentials_are_anonymous
  (env : Env) (regUrl : string) (file : RegistryFile) (w : World) :
  let rule := hostRules_find env id regUrl in
  (is_Some (username rule) /\ password rule = None)
  \/ (username rule = None /\ is_Some (password rule)) ->
  let opts := getHostOpts env regUrl in
  let k := regUrl ++ key file in
  let out := getPackagistFile env regUrl file w in
  opts = no_opts
  /\ (exists rest,
        trace (snd out) = (trace w ++ CacheGet files_namespace k :: rest)%list)
  /\ (~ fresh_record regUrl file w ->
      forall body,
        shard_document env (requests w) (shard_url regUrl file) opts = inr body ->
        fst out = Ok body
        /\ files_ns (snd out) !! k
           = Some ({| res := body; rec_sha256 := file_sha256 file |}, 1440)
        /\ trace (snd out)
           = (trace w ++ [CacheGet files_namespace k;
                          HttpGet (shard_url regUrl file) opts;
                          CacheSet files_namespace k 1440])%list).
Proof.
  intros rule H opts k out.
  assert (Ho : opts = no_opts).
  { subst opts. unfold getHostOpts. fold rule.
    destruct H as [[_ ->]|[-> _]]; simpl; [|done].
    by rewrite andb_false_r. }
  assert (Hc : has_credentials (getHostOpts env regUrl) = false).
  { fold opts. by rewrite Ho. }
  split; [done|].
  pose proof (getPackagistFile_anonymous env regUrl file w Hc) as Hrun.
  simpl in Hrun. fold opts k in Hrun. fold out in Hrun.
  split.
  - rewrite Hrun.
    destruct (files_ns w !! k) as [[r ttl]|].
    + destruct (String.eqb _ _); [by exists []|].
      destruct (shard_document _ _ _ _); simpl; eauto.
    + destruct (shard_document _ _ _ _); simpl; eauto.
  - intros Hn body Hb. rewrite Hb in Hrun.
    destruct (files_ns w !! k) as [[r ttl]|] eqn:Hk.
    + destruct (String.eqb _ _) eqn:E.
      * exfalso. apply Hn. apply (fresh_record_hit regUrl file w r ttl Hk), E.
      * rewrite Hrun. simpl. by rewrite lookup_insert_eq.
    + rewrite Hrun. simpl. by rewrite lookup_insert_eq.
Qed.

(** ** Default-registry lookup *)

(** The lookup of a name for which the cache has no usable record: the
    document is requested, and the outcome written with its expiry. *)
Lemma packagistOrgLookup_miss (env : Env) (n : string) (w : World) :
  (forall d ttl, org_ns w !! n <> Some (Some d, ttl)) ->
  let fetched (extra : list Event) (store : gmap string (option ReleaseResult * Z)) :=
    {| repoCache := repoCache w; files_ns := files_ns w; org_ns := store;
       requests := S (requests w);
       trace := trace w ++ [CacheGet org_namespace n;
                            HttpGet (org_url env n) no_opts] ++ extra |} in
  packagistOrgLookup env n w
  = match package_document env (requests w) (org_url env n) no_opts with
    | inl e => (Throw (Raised e), fetched [] (org_ns w))
    | inr body =>
        match pb_packages body with
        | None => (Throw (Raised TypeError), fetched [] (org_ns w))
        | Some o =>
            match versions_of o n with
            | Some vs =>
                let dep := set_name n (extractDepReleases (Some vs)) in
                (Ok (Val dep),
                 fetched [Log "trace" "dep"; CacheSet org_namespace n 10]
                   (<[n := (Some dep, 10)]> (org_ns w)))
            | None =>
                (Ok Null,
                 fetched [CacheSet org_namespace n 10]
                   (<[n := (None, 10)]> (org_ns w)))
            end
        end
    end.
Proof.
  intros Hmiss fetched. subst fetched.
  unfold packagistOrgLookup, org_url, cacheMinutes_org.
  generalize (URL_resolve env default_registry ("/p/" ++ n ++ ".json")).
  intros u. run.
  assert (Hc : forall c, fst <$> org_ns w !! n = Some (Some c) -> False).
  { intros c Hc. destruct (org_ns w !! n) as [[o ttl]|] eqn:E; [|done].
    simpl in Hc. injection Hc as ->. by apply (Hmiss c ttl). }
  destruct (fst <$> org_ns w !! n) as [[c|]|]; [by destruct (Hc c)| |];
    simpl;
    (destruct (package_document env (requests w) u no_opts) as [e|body];
     simpl; [by rewrite <- ?app_assoc|];
     destruct (pb_packages body) as [o|]; simpl; [|by rewrite <- ?app_assoc];
     destruct (versions_of o n); simpl; by rewrite <- ?app_assoc).
Qed.

(** [o[name]] is falsy when the entry of the name is [null], or when
    [o] has no entry for it and it is not a name that every object
    inherits. *)
Lemma versions_of_absent (o : Dict (option RawVersions)) (n : string) :
  versions_of o n = None
  <-> get o n = Some None \/ (get o n = None /\ inherits n = false).
Proof.
  unfold versions_of. destruct (get o n) as [[vs|]|].
  - split; [done|]. by intros [?|[? _]].
  - split; [by left|done].
  - destruct (inherits n).
    + split; [done|]. by intros [?|[_ ?]].
    + split; [by right|done].
Qed.

(** C10.  When the cache has no release result for the name and the
    per-package document of the default registry lacks the package
    ([body.packages[name]] is falsy: the entry is [null], or there is no
    entry and the name is not one that every object inherits, such as
    [constructor]), [packagistOrgLookup] returns [null] and writes that
    [null] with a 10-minute expiry; a world in which that [null] is
    stored is still a miss: the lookup requests the document again. *)
Theorem packagistOrgLookup_stored_null_is_refetched
  (env : Env) (n : string) (w : World) (body : PackageBody)
  (o : Dict (option RawVersions)) :
  (forall d ttl, org_ns w !! n <> Some (Some d, ttl)) ->
  package_document env (requests w) (org_url env n) no_opts = inr body ->
  pb_packages body = Some o ->
  get o n = Some None \/ (get o n = None /\ inherits n = false) ->
  let out := packagistOrgLookup env n w in
  fst out = Ok Null
  /\ org_ns (snd out) !! n = Some (None, 10)
  /\ trace (snd out)
     = (trace w ++ [CacheGet org_namespace n;
                    HttpGet (org_url env n) no_opts;
                    CacheSet org_namespace n 10])%list
  /\ forall w2 ttl,
       org_ns w2 !! n = Some (None, ttl) ->
       let again := packagistOrgLookup env n w2 in
       requests (snd again) = S (requests w2)
       /\ exists rest,
            trace (snd again)
            = (trace w2 ++ CacheGet org_namespace n
                 :: HttpGet (org_url env n) no_opts :: rest)%list.
Proof.
  intros Hmiss Hdoc Hpk Habsent out. subst out.
  apply versions_of_absent in Habsent.
  rewrite (packagistOrgLookup_miss env n w Hmiss), Hdoc, Hpk, Habsent.
  simpl. rewrite lookup_insert_eq. repeat split; intros; simpl.
  - rewrite packagistOrgLookup_miss by (intros d t; rewrite H; congruence).
    destruct (package_document env (requests w2) _ _) as [e|b]; [done|].
    destruct (pb_packages b) as [o'|]; [|done].
    by destruct (versions_of o' n).
  - rewrite packagistOrgLookup_miss by (intros d t; rewrite H; congruence).
    destruct (package_document env (requests w2) _ _) as [e|b]; [by eexists|].
    destruct (pb_packages b) as [o'|]; [|by eexists].
    destruct (versions_of o' n); by eexists.
Qed.

(** ** Error policy of the lookup *)

Lemma is_server_error_spec (sc : option Z) :
  is_server_error sc = true <-> exists s, sc = Some s /\ 500 <= s <= 599.
Proof.
  unfold is_server_error. destruct sc as [s|].
  - rewrite !andb_true_iff, negb_true_iff, Z.eqb_neq, Z.leb_le, Z.ltb_lt.
    split.
    + intros [[? ?] ?]. exists s. split; [done|lia].
    + intros (s' & [= <-] & ?). lia.
  - split; [done|]. by intros (s & ? & _).
Qed.

Lemma lookup_failure_cases (n : string) (err : Exn) (w : World) :
  let e := fields err in
  (not_found e ->
   lookup_failure n err w
   = (Ok Null, logged w [Log "debug" "Dependency lookup failure: not found";
                         Log "debug" ""]))
  /\ (~ not_found e -> from_default_registry e -> transport_failure e ->
      lookup_failure n err w = (Throw (DatasourceError err), w))
  /\ (~ not_found e -> ~ (from_default_registry e /\ transport_failure e) ->
      lookup_failure n err w
      = (Ok Null,
         logged w [Log "warn" "packagist registry failure: Unknown error"])).
Proof.
  intros e. unfold lookup_failure, not_found, from_default_registry,
    transport_failure, logged. fold e.
  pose proof (is_server_error_spec (statusCode e)) as Hs.
  repeat case_bool_decide; simpl;
    destruct (is_server_error (statusCode e)); run;
    repeat split; intros; try done; try tauto;
    rewrite <- ?app_assoc; try done.
  all: exfalso; intuition (try discriminate; eauto).
Qed.

Lemma not_found_dec (e : JsError) : not_found e \/ ~ not_found e.
Proof.
  unfold not_found.
  destruct (decide (statusCode e = Some 404)),
    (decide (code e = Some "ENOTFOUND")); tauto.
Qed.

Lemma outage_dec (e : JsError) :
  (from_default_registry e /\ transport_failure e)
  \/ ~ (from_default_registry e /\ transport_failure e).
Proof.
  unfold from_default_registry, transport_failure.
  pose proof (is_server_error_spec (statusCode e)) as Hs.
  destruct (decide (host e = Some "packagist.org")); [|tauto].
  destruct (decide (code e = Some "ECONNRESET")); [tauto|].
  destruct (decide (code e = Some "ETIMEDOUT")); [tauto|].
  destruct (is_server_error (statusCode e)).
  - left. split; [done|]. right. right. by apply Hs.
  - right. intros [_ [?|[?|H]]]; try done. apply Hs in H. done.
Qed.

(** C7.  An error caught by [packageLookup] is answered by [null] when it
    is a 404 or [ENOTFOUND]; otherwise, when it carries the host of the
    default registry and is a connection reset, a timeout or a status
    from 500 to 599, a [DatasourceError] around it is thrown; every other
    error is logged as a warning and answered by [null].  The lookup
    throws nothing but these [DatasourceError]s. *)
Theorem packageLookup_error_policy
  (env : Env) (regUrl n : string) (w : World) :
  (forall err w1,
      lookup_attempt env regUrl n w = (Throw err, w1) ->
      let e := fields err in
      let out := packageLookup env regUrl n w in
      (not_found e -> fst out = Ok Null)
      /\ (~ not_found e -> from_default_registry e -> transport_failure e ->
          fst out = Throw (DatasourceError err))
      /\ (~ not_found e -> ~ (from_default_registry e /\ transport_failure e) ->
          out = (Ok Null,
                 logged w1 [Log "warn" "packagist registry failure: Unknown error"])))
  /\ (forall x w',
        packageLookup env regUrl n w = (Throw x, w') ->
        exists err,
          lookup_attempt env regUrl n w = (Throw err, w')
          /\ x = DatasourceError err
          /\ ~ not_found (fields err)
          /\ from_default_registry (fields err)
          /\ transport_failure (fields err)).
Proof.
  split.
  - intros err w1 Hthrow e out. subst out.
    unfold packageLookup, try_catch. rewrite Hthrow.
    destruct (lookup_failure_cases n err w1) as (H1 & H2 & H3). fold e in H1, H2, H3.
    repeat split.
    + intros H. by rewrite H1.
    + intros Hn Hd Ht. by rewrite H2.
    + intros Hn Hd. by rewrite H3.
  - intros x w'. unfold packageLookup, try_catch.
    destruct (lookup_attempt env regUrl n w) as [[r|err|] w1]; try done.
    intros Hh. exists err.
    destruct (lookup_failure_cases n err w1) as (H1 & H2 & H3).
    set (e := fields err) in *.
    destruct (not_found_dec e) as [Hn|Hn].
    { rewrite H1 in Hh by done. done. }
    destruct (outage_dec e) as [[Hd Ht]|Hd].
    + rewrite H2 in Hh by done. by injection Hh as <- <-.
    + rewrite H3 in Hh by done. done.
Qed.

(** ** Layout priority *)

Lemma packageLookup_in_view (env : Env) (regUrl n : string) (w : World)
  (all : AllPackages) (w1 : World) :
  regUrl <> default_registry ->
  getAllPackages env regUrl w = (Ok (Val all), w1) ->
  packageLookup env regUrl n w
  = try_catch (lookup_in env regUrl n all) (lookup_failure n) w1.
Proof.
  intros Hne Hget. unfold packageLookup, lookup_attempt.
  apply String.eqb_neq in Hne. rewrite Hne.
  unfold try_catch, bind. by rewrite Hget.
Qed.

(** The lookup in the default registry is [packagistOrgLookup] under the
    error policy. *)
Lemma packageLookup_default env n w :
  packageLookup env default_registry n w
  = match packagistOrgLookup env n w with
    | (Ok r, w') => (Ok (as_value r), w')
    | (Throw e, w') => lookup_failure n e w'
    | (Hang, w') => (Hang, w')
    end.
Proof.
  unfold packageLookup, lookup_attempt, try_catch, bind, ret.
  rewrite String.eqb_refl.
  by destruct (packagistOrgLookup env n w) as [[r|e|] w'].
Qed.

Lemma member_of_not_property (k : string) (m : ProtoMember) :
  member_of k = Some m ->
  String.eqb k "releases" = false /\ String.eqb k "name" = false
  /\ String.eqb k "homepage" = false /\ String.eqb k "sourceUrl" = false.
Proof.
  intros H. repeat split; apply String.eqb_neq; intros ->; discriminate H.
Qed.

(** Every name that objects inherit is found in [includesPackages]. *)
Lemma includes_get_inherited (inc : Includes) (k : string) :
  inherits k = true -> is_Some (includes_get inc k).
Proof.
  unfold inherits, includes_get. destruct (member_of k) as [m|] eqn:Hm; [|done].
  intros _. destruct (inc_own inc !! k); [by eexists|].
  destruct (inc_proto inc) as [p|]; [|by eexists].
  destruct (String.eqb k "__proto__"); [by eexists|].
  unfold proto_property.
  destruct (member_of_not_property k m Hm) as (-> & -> & -> & ->).
  rewrite Hm. by eexists.
Qed.

Lemma includes_get_falsy (inc : Includes) (k : string) :
  includes_get inc k = None -> inherits k = false.
Proof.
  intros H. destruct (inherits k) eqn:E; [|done].
  destruct (includes_get_inherited inc k E) as [v Hv]. congruence.
Qed.

(** C4.  On a registry other than the default one, with [all] the
    assembled view, the three layouts are tried in order.  When
    [packages[name]] is truthy it is normalized and returned.  Otherwise,
    when [includesPackages[name]] is truthy it is returned as it is: for
    an own entry that is the release result stored at assembly.
    Otherwise, when [providerPackages[name]] is a non-empty hash, the
    per-package document is requested and normalized; and else the
    answer is [null].  In the first two cases the world is the one the
    assembly left: no request is made for the package. *)
Theorem packageLookup_layout_priority
  (env : Env) (regUrl n : string) (w : World) (all : AllPackages) (w1 : World) :
  regUrl <> default_registry ->
  getAllPackages env regUrl w = (Ok (Val all), w1) ->
  let out := packageLookup env regUrl n w in
  (forall vs,
      flat_entry all n = Some vs ->
      out = (Ok (Val (Dep (set_name n (extractDepReleases (Some vs))))), w1))
  /\ (forall dep,
        flat_entry all n = None ->
        inc_own (includesPackages all) !! n = Some dep ->
        out = (Ok (Val (Dep dep)), w1))
  /\ (forall found,
        flat_entry all n = None ->
        includes_get (includesPackages all) n = Some found ->
        out = (Ok (Val found), w1))
  /\ (forall hash template body o,
        flat_entry all n = None ->
        includes_get (includesPackages all) n = None ->
        providerPackages all !! n = Some hash -> hash <> "" ->
        providersUrl all = Some template ->
        let u := provider_url env regUrl template n hash in
        let opts := getHostOpts env regUrl in
        package_document env (requests w1) u opts = inr body ->
        pb_packages body = Some o ->
        fst out
        = Ok (Val (Dep (set_name n (extractDepReleases (versions_of o n)))))
        /\ trace (snd out)
           = (trace w1 ++ [HttpGet u opts; Log "trace" "dep"])%list)
  /\ (flat_entry all n = None ->
      includes_get (includesPackages all) n = None ->
      providerPackages all !! n = None \/ providerPackages all !! n = Some "" ->
      out = (Ok Null, w1)).
Proof.
  intros Hne Hget out. subst out.
  rewrite (packageLookup_in_view env regUrl n w all w1 Hne Hget).
  unfold try_catch, lookup_in, flat_entry.
  change (packages all ≫= (fun o => versions_of o n))
    with (match packages all with
          | Some o => versions_of o n
          | None => None
          end).
  split; [|split; [|split; [|split]]].
  - intros vs ->. done.
  - intros dep -> Hown. unfold includes_get. by rewrite Hown.
  - intros found -> ->. done.
  - intros hash template body o -> -> -> Hh Ht.
    apply String.eqb_neq in Hh. simpl. rewrite Hh. simpl.
    unfold provider_lookup, provider_url. rewrite Ht.
    generalize (URL_resolve env regUrl
                  (replace (replace template "%package%" n) "%hash%" hash)).
    intros u Hdoc Hpk. run. rewrite Hdoc. simpl. rewrite Hpk. simpl.
    by rewrite <- app_assoc.
  - intros -> -> [->| ->]; done.
Qed.

(** ** Multi-registry fallback *)

Lemma all_soft_fail_cons env n q regs w :
  all_soft_fail env n (q :: regs) w ->
  fst (packageLookup env q n w) = Ok Null
  /\ all_soft_fail env n regs (snd (packageLookup env q n w)).
Proof.
  intros H. split.
  - apply (H 0%nat q). done.
  - intros i r Hi. apply (H (S i) r). done.
Qed.

Lemma try_registries_all_null env n r0 regs w :
  all_soft_fail env n regs w ->
  try_registries env n r0 regs w
  = (Ok (match regs with [] => r0 | _ => Null end), world_after env n regs w).
Proof.
  revert r0 w. induction regs as [|q regs IH]; intros r0 w H; [done|].
  apply all_soft_fail_cons in H as [Hq H].
  simpl. unfold bind.
  destruct (packageLookup env q n w) as [o w1] eqn:E. simpl in *. subst o.
  simpl. rewrite (IH Null w1 H). by destruct regs.
Qed.

Lemma try_registries_first env n r0 pre r post d w :
  all_soft_fail env n pre w ->
  fst (packageLookup env r n (world_after env n pre w)) = Ok (Val d) ->
  try_registries env n r0 (pre ++ r :: post) w
  = (Ok (Val d), snd (packageLookup env r n (world_after env n pre w))).
Proof.
  revert r0 w. induction pre as [|q pre IH]; intros r0 w H Hr; simpl in *.
  - unfold bind. destruct (packageLookup env r n w) as [o w1]. simpl in *.
    by subst o.
  - apply all_soft_fail_cons in H as [Hq H]. unfold bind.
    destruct (packageLookup env q n w) as [o w1] eqn:E. simpl in *. subst o.
    simpl. by apply IH.
Qed.

Lemma packagistOrgLookup_defined env n w :
  fst (packagistOrgLookup env n w) <> Ok Undefined.
Proof.
  unfold packagistOrgLookup. run.
  destruct (fst <$> org_ns w !! n) as [[d|]|]; simpl; try done;
    (destruct (package_document env _ _ _) as [e|body]; simpl; [done|];
     destruct (pb_packages body) as [o|]; simpl; [|done];
     by destruct (versions_of o n)).
Qed.

Lemma lookup_in_defined env regUrl n all w :
  fst (lookup_in env regUrl n all w) <> Ok Undefined.
Proof.
  unfold lookup_in.
  destruct (packages all ≫= _); [done|].
  destruct (includes_get (includesPackages all) n); [done|].
  destruct (providerPackages all !! n) as [hash|]; [|done].
  destruct (str_truthy (Some hash)); [|done].
  unfold provider_lookup. destruct (providersUrl all); [|done]. run.
  destruct (package_document env _ _ _) as [e|body]; simpl; [done|].
  by destruct (pb_packages body).
Qed.

Lemma lookup_failure_defined n err w :
  fst (lookup_failure n err w) <> Ok Undefined.
Proof.
  unfold lookup_failure.
  repeat match goal with
         | |- context [if ?b then _ else _] => destruct b
         end; done.
Qed.

Lemma packageLookup_defined env regUrl n w :
  fst (packageLookup env regUrl n w) <> Ok Undefined.
Proof.
  unfold packageLookup, try_catch.
  destruct (lookup_attempt env regUrl n w) as [[r|err|] w1] eqn:E;
    simpl; try done; [|apply lookup_failure_defined].
  intros [= ->]. revert E. unfold lookup_attempt.
  destruct (String.eqb regUrl default_registry).
  - unfold bind. pose proof (packagistOrgLookup_defined env n w) as Hd.
    destruct (packagistOrgLookup env n w) as [[[| |d]|?|] w2]; done.
  - unfold bind.
    destruct (getAllPackages env regUrl w) as [[[| |all]|?|] w2]; try done.
    intros E. by apply (lookup_in_defined env regUrl n all w2); rewrite E.
Qed.

Lemma try_registries_defined env n r0 regs w :
  regs <> [] -> fst (try_registries env n r0 regs w) <> Ok Undefined.
Proof.
  revert r0 w. induction regs as [|q regs IH]; intros r0 w Hne; [done|].
  simpl. unfold bind.
  pose proof (packageLookup_defined env q n w) as Hq.
  destruct (packageLookup env q n w) as [[[| |d]|?|] w1]; simpl in *; try done.
  destruct regs as [|q' regs]; [done|]. by apply IH.
Qed.

(** C8, as the code has it.  [getReleases] looks the package up in the
    given registries in their order, or in the default registry alone
    when none is given; the first lookup that answers a value other than
    [null] (a release result, in general) ends the loop and is the
    result, the later registries are not consulted; when every lookup
    answers [null] the result is [null]; the result is never
    [undefined]. *)
Theorem getReleases_first_non_null
  (env : Env) (n : string) (registryUrls : option (list string)) (w : World) :
  let regs := match registryUrls with
              | Some (r :: rs) => r :: rs
              | _ => ["https://packagist.org"]
              end in
  let w0 := logged w [Log "trace" ("getReleases(" ++ n ++ ")")] in
  (forall pre r post d,
      regs = (pre ++ r :: post)%list ->
      all_soft_fail env n pre w0 ->
      fst (packageLookup env r n (world_after env n pre w0)) = Ok (Val d) ->
      getReleases env n registryUrls w
      = (Ok (Val d), snd (packageLookup env r n (world_after env n pre w0))))
  /\ (all_soft_fail env n regs w0 ->
      getReleases env n registryUrls w = (Ok Null, world_after env n regs w0))
  /\ fst (getReleases env n registryUrls w) <> Ok Undefined.
Proof.
  intros regs w0.
  assert (Hrun : getReleases env n registryUrls w
                 = try_registries env n Undefined regs w0).
  { unfold getReleases. run. by destruct registryUrls as [[|r rs]|]. }
  assert (Hne : regs <> []) by (by destruct registryUrls as [[|r rs]|]).
  rewrite Hrun. split; [|split].
  - intros pre r post d -> Hpre Hr. by apply try_registries_first.
  - intros H. rewrite (try_registries_all_null env n Undefined regs w0 H).
    by destruct regs.
  - by apply try_registries_defined.
Qed.

(** C8, as stated, fails: both registries answer [null], and the result
    is [null], not [undefined]. *)
Lemma getReleases_all_soft_fail_not_undefined :
  ~ (let regs := ["https://a.example"; "https://c.example"] in
     let w0 := logged Demo.start [Log "trace" "getReleases(vendor/pkg)"] in
     all_soft_fail Demo.env "vendor/pkg" regs w0 ->
     fst (getReleases Demo.env "vendor/pkg" (Some regs) Demo.start)
     = Ok Undefined).
Proof.
  intros H.
  assert (Hfail : all_soft_fail Demo.env "vendor/pkg"
                    ["https://a.example"; "https://c.example"]
                    (logged Demo.start [Log "trace" "getReleases(vendor/pkg)"])).
  { intros [|[|i]] q Hq; simpl in Hq; [| |done];
      injection Hq as <-; vm_compute; reflexivity. }
  specialize (H Hfail). vm_compute in H. discriminate H.
Qed.

(** The fallback of the specification: the first registry answers 404,
    the second one resolves the package. *)
Lemma getReleases_first_non_null_witness :
  fst (getReleases Demo.env "vendor/pkg"
         (Some ["https://a.example"; "https://b.example"]) Demo.start)
  = Ok (Val (Dep (set_name "vendor/pkg"
                    (extractDepReleases (Some Demo.versions))))).
Proof.
  pose proof (proj1 (getReleases_first_non_null Demo.env "vendor/pkg"
                       (Some ["https://a.example"; "https://b.example"])
                       Demo.start)
                ["https://a.example"] "https://b.example" []
                (Dep (set_name "vendor/pkg"
                        (extractDepReleases (Some Demo.versions)))))
    as H.
  rewrite H; [reflexivity|reflexivity| |vm_compute; reflexivity].
  intros [|i] q Hq; simpl in Hq; [|done].
  injection Hq as <-. vm_compute. reflexivity.
Defined.

(** ** Registry resolution cache *)

Lemma extends_refl w : extends w w.
Proof. split; [exists []; by rewrite app_nil_r|done]. Qed.

Lemma extends_trans w1 w2 w3 : extends w1 w2 -> extends w2 w3 -> extends w1 w3.
Proof.
  intros [[r1 H1] L1] [[r2 H2] L2]. split; [|lia].
  exists (r1 ++ r2)%list. by rewrite H2, H1, app_assoc.
Qed.

Lemma appends_ret {A} (a : A) : appends (ret a).
Proof. intros w. apply extends_refl. Qed.

Lemma appends_throw {A} (e : Exn) : appends (@throw A e).
Proof. intros w. apply extends_refl. Qed.

Lemma appends_bind {A B} (m : M A) (f : A -> M B) :
  appends m -> (forall a, appends (f a)) -> appends (bind m f).
Proof.
  intros Hm Hf w. unfold bind. specialize (Hm w).
  destruct (m w) as [[a|e|] w1]; simpl in *; try done.
  eapply extends_trans; [exact Hm|apply Hf].
Qed.

Lemma appends_try_catch {A} (m : M A) (h : Exn -> M A) :
  appends m -> (forall e, appends (h e)) -> appends (try_catch m h).
Proof.
  intros Hm Hh w. unfold try_catch. specialize (Hm w).
  destruct (m w) as [[a|e|] w1]; simpl in *; try done.
  eapply extends_trans; [exact Hm|apply Hh].
Qed.

Lemma appends_emit e : appends (emit e).
Proof. intros w. split; simpl; [by eexists|done]. Qed.

Lemma appends_request {A} (answer : nat -> string -> HttpOptions -> JsError + A)
  u opts : appends (request answer u opts).
Proof.
  intros w. unfold request.
  destruct (answer (requests w) u opts); split; simpl; (by eexists) || lia.
Qed.

Lemma extends_same w w' :
  trace w' = trace w -> requests w' = requests w -> extends w w'.
Proof.
  intros Ht Hr. split; [|lia]. exists []. by rewrite Ht, app_nil_r.
Qed.

Lemma appends_repo_write k e : appends (repo_write k e).
Proof. intros w. by apply extends_same. Qed.

Lemma appends_cache_get_file k : appends (cache_get_file k).
Proof.
  apply appends_bind; [apply appends_emit|]. intros _ w. by apply extends_same.
Qed.

Lemma appends_cache_set_file k r m : appends (cache_set_file k r m).
Proof.
  apply appends_bind; [apply appends_emit|]. intros _ w. by apply extends_same.
Qed.

Lemma appends_for_each {A S} (xs : list A) (body : S -> A -> M S) s :
  (forall s x, appends (body s x)) -> appends (for_each xs body s).
Proof.
  intros Hb. revert s. induction xs as [|x xs IH]; intros s; simpl.
  - apply appends_ret.
  - apply appends_bind; [apply Hb|apply IH].
Qed.

Lemma appends_all {A B} (f : A -> M B) (xs : list A) :
  (forall x, appends (f x)) -> appends (all f xs).
Proof.
  intros Hf. induction xs as [|x xs IH]; simpl.
  - apply appends_ret.
  - apply appends_bind; [apply Hf|]. intros b.
    apply appends_bind; [apply IH|]. intros bs. apply appends_ret.
Qed.

Lemma appends_getPackagistFile env regUrl file :
  appends (getPackagistFile env regUrl file).
Proof.
  unfold getPackagistFile.
  destruct (has_credentials _); [apply appends_request|].
  apply appends_bind; [apply appends_cache_get_file|]. intros cached.
  assert (appends
            (let* r := request (shard_document env)
                         (regUrl ++ "/" ++ replace (key file) "%hash%"
                                                (file_sha256 file))
                         (getHostOpts env regUrl) in
             let* _ := cache_set_file (regUrl ++ key file)
                         {| res := r; rec_sha256 := file_sha256 file |}
                         cacheMinutes_files in
             ret r)) as Hfetch.
  { apply appends_bind; [apply appends_request|]. intros r.
    apply appends_bind; [apply appends_cache_set_file|]. intros _.
    apply appends_ret. }
  destruct cached as [r|]; [|exact Hfetch].
  destruct (String.eqb _ _); [apply appends_ret|exact Hfetch].
Qed.

(** The root fetch, step by step. *)
Lemma getRegistryMeta_run env regUrl w :
  let u := root_url env regUrl in
  let opts := getHostOpts env u in
  let fetched := {| repoCache := repoCache w; files_ns := files_ns w;
                    org_ns := org_ns w; requests := S (requests w);
                    trace := trace w ++ [HttpGet u opts] |} in
  match root_document env (requests w) u opts with
  | inr r => getRegistryMeta env regUrl w = (Ok (Some (registry_meta_of r)), fetched)
  | inl e =>
      exists level msg,
        getRegistryMeta env regUrl w
        = (Ok None, logged fetched [Log level msg])
  end.
Proof.
  intros u opts fetched. unfold getRegistryMeta. fold (root_url env regUrl).
  fold u. fold opts. run.
  destruct (root_document env (requests w) u opts) as [e|r]; [|done].
  apply registry_meta_failure_null.
Qed.

(** The assembly that follows a successful root fetch. *)
Lemma appends_assembly env regUrl (meta : RegistryMeta) :
  appends
    (let* providerPackages :=
       match files meta with
       | Some fs =>
           let* resolvedFiles := all (getPackagistFile env regUrl) fs in
           for_each resolvedFiles merge_shard (rm_providerPackages meta)
       | None => ret (rm_providerPackages meta)
       end in
     let* includesPackages :=
       match includesFiles meta with
       | Some fs => for_each fs (resolve_include env regUrl) ∅
       | None => ret ∅
       end in
     let allPackages :=
       {| packages := rm_packages meta;
          providersUrl := rm_providersUrl meta;
          providerPackages := providerPackages;
          includesPackages := includesPackages |} in
     let* _ := repo_write (repo_key regUrl) (Resolved allPackages) in
     ret (Val allPackages)).
Proof.
  apply appends_bind.
  { destruct (files meta) as [fs|]; [|apply appends_ret].
    apply appends_bind.
    - apply appends_all. intros x. apply appends_getPackagistFile.
    - intros rs. apply appends_for_each. intros m r. unfold merge_shard.
      destruct (providers r); [apply appends_ret|apply appends_throw]. }
  intros pp. apply appends_bind.
  { destruct (includesFiles meta) as [fs|]; [|apply appends_ret].
    apply appends_for_each. intros m f. unfold resolve_include.
    apply appends_bind; [apply appends_getPackagistFile|]. intros r.
    destruct (pf_packages r); apply appends_ret. }
  intros ip. apply appends_bind; [apply appends_repo_write|].
  intros _. apply appends_ret.
Qed.

(** A resolved entry is served as it is: nothing is fetched, nothing
    changes. *)
Lemma getAllPackages_resolved_is_permanent env regUrl w v :
  repoCache w !! repo_key regUrl = Some (Resolved v) ->
  getAllPackages env regUrl w = (Ok (Val v), w).
Proof.
  intros H. unfold getAllPackages. run. rewrite H. simpl.
  by destruct (poll_budget env).
Qed.

(** A failed entry is not: the call runs as if the registry had never
    been resolved. *)
Lemma getAllPackages_failed_as_absent env regUrl w :
  repoCache w !! repo_key regUrl = Some Failed ->
  getAllPackages env regUrl w = getAllPackages env regUrl (forget regUrl w).
Proof.
  intros H. unfold getAllPackages, forget. run.
  rewrite H, lookup_delete_eq. simpl. by rewrite insert_delete_eq.
Qed.

(** What the steps of a resolution leave in [global.repoCache]. *)
Lemma keeps_repo_ret {A} (a : A) : keeps_repo (ret a).
Proof. done. Qed.

Lemma keeps_repo_throw {A} (e : Exn) : keeps_repo (@throw A e).
Proof. done. Qed.

Lemma keeps_repo_bind {A B} (m : M A) (f : A -> M B) :
  keeps_repo m -> (forall a, keeps_repo (f a)) -> keeps_repo (bind m f).
Proof.
  intros Hm Hf w. unfold bind. specialize (Hm w).
  destruct (m w) as [[a|e|] w1]; simpl in *; try done.
  by rewrite Hf.
Qed.

Lemma keeps_repo_request {A} (answer : nat -> string -> HttpOptions -> JsError + A)
  u opts : keeps_repo (request answer u opts).
Proof. intros w. unfold request. by destruct (answer _ _ _). Qed.

Lemma keeps_repo_for_each {A S} (xs : list A) (body : S -> A -> M S) s :
  (forall s x, keeps_repo (body s x)) -> keeps_repo (for_each xs body s).
Proof.
  intros Hb. revert s. induction xs as [|x xs IH]; intros s; simpl.
  - apply keeps_repo_ret.
  - apply keeps_repo_bind; [apply Hb|apply IH].
Qed.

Lemma keeps_repo_all {A B} (f : A -> M B) (xs : list A) :
  (forall x, keeps_repo (f x)) -> keeps_repo (all f xs).
Proof.
  intros Hf. induction xs as [|x xs IH]; simpl.
  - apply keeps_repo_ret.
  - apply keeps_repo_bind; [apply Hf|]. intros b.
    apply keeps_repo_bind; [apply IH|]. intros bs. apply keeps_repo_ret.
Qed.

Lemma keeps_repo_getPackagistFile env regUrl file :
  keeps_repo (getPackagistFile env regUrl file).
Proof.
  intros w. unfold getPackagistFile.
  destruct (has_credentials _); [apply keeps_repo_request|].
  run. destruct (fst <$> files_ns w !! _) as [r|]; simpl.
  - destruct (String.eqb _ _); [done|]. simpl.
    by destruct (shard_document env _ _ _).
  - by destruct (shard_document env _ _ _).
Qed.

Lemma keeps_repo_shards env regUrl meta :
  keeps_repo
    (match files meta with
     | Some fs =>
         let* resolvedFiles := all (getPackagistFile env regUrl) fs in
         for_each resolvedFiles merge_shard (rm_providerPackages meta)
     | None => ret (rm_providerPackages meta)
     end).
Proof.
  destruct (files meta) as [fs|]; [|apply keeps_repo_ret].
  apply keeps_repo_bind.
  - apply keeps_repo_all. intros x. apply keeps_repo_getPackagistFile.
  - intros rs. apply keeps_repo_for_each. intros m r. unfold merge_shard.
    destruct (providers r); [apply keeps_repo_ret|apply keeps_repo_throw].
Qed.

Lemma keeps_repo_includes env regUrl meta :
  keeps_repo
    (match includesFiles meta with
     | Some fs => for_each fs (resolve_include env regUrl) ∅
     | None => ret ∅
     end).
Proof.
  destruct (includesFiles meta) as [fs|]; [|apply keeps_repo_ret].
  apply keeps_repo_for_each. intros m f. unfold resolve_include.
  apply keeps_repo_bind; [apply keeps_repo_getPackagistFile|]. intros r.
  destruct (pf_packages r); apply keeps_repo_ret.
Qed.

(** The assembly either throws with the cache untouched, or stores the
    view it returns. *)
Lemma assembly_outcome env regUrl meta w :
  match assembly env regUrl meta w with
  | (Ok r, w1) =>
      exists v, r = Val v
                /\ repoCache w1 = <[repo_key regUrl := Resolved v]> (repoCache w)
  | (Throw _, w1) => repoCache w1 = repoCache w
  | (Hang, w1) => repoCache w1 = repoCache w
  end.
Proof.
  unfold assembly. unfold bind at 1.
  pose proof (keeps_repo_shards env regUrl meta w) as H1.
  match type of H1 with
  | repoCache (snd ?c) = _ => destruct c as [[pp|e|] w1]
  end; simpl in H1; try done.
  unfold bind at 1.
  pose proof (keeps_repo_includes env regUrl meta w1) as H2.
  match type of H2 with
  | repoCache (snd ?c) = _ => destruct c as [[ip|e|] w2]
  end; simpl in H2; try congruence.
  run. eexists. split; [reflexivity|]. simpl. congruence.
Qed.

(** A call that finds no usable entry: the marker, the root fetch, and
    then the failure or the assembly. *)
Lemma getAllPackages_fresh env regUrl w :
  entry_truthy (repoCache w !! repo_key regUrl) = false ->
  getAllPackages env regUrl w
  = match getRegistryMeta env regUrl (with_entry regUrl Pending w) with
    | (Ok (Some meta), w1) => assembly env regUrl meta w1
    | (Ok None, w1) => (Ok Null, with_entry regUrl Failed w1)
    | (Throw e, w1) => (Throw e, w1)
    | (Hang, w1) => (Hang, w1)
    end.
Proof.
  intros Hf. unfold getAllPackages.
  unfold bind at 1. unfold repo_read at 1. cbv beta iota. rewrite Hf.
  unfold bind at 1. unfold repo_write at 1. cbv beta iota.
  unfold bind at 1. fold (with_entry regUrl Pending w).
  destruct (getRegistryMeta env regUrl (with_entry regUrl Pending w))
    as [[[meta|]|e|] w1]; try done.
Qed.

(** The polls of a pending entry.  When the entry stays ['pending']
    through the first [m] reads and is something else after [m] delays,
    the loop ends at that read with what the entry then holds; it has
    waited [m] times and requested nothing. *)
Lemma wait_while_pending_polls env regUrl (m : nat) :
  forall polls w,
    (m <= polls)%nat ->
    (forall j, (j < m)%nat ->
               Nat.iter j (other_tasks env) (repoCache w) !! repo_key regUrl
               = Some Pending) ->
    Nat.iter m (other_tasks env) (repoCache w) !! repo_key regUrl
    <> Some Pending ->
    wait_while_pending env polls regUrl (repoCache w !! repo_key regUrl) w
    = (Ok (entry_value
             (Nat.iter m (other_tasks env) (repoCache w) !! repo_key regUrl)),
       {| repoCache := Nat.iter m (other_tasks env) (repoCache w);
          files_ns := files_ns w; org_ns := org_ns w;
          requests := requests w;
          trace := trace w ++ repeat (Delay 200) m |}).
Proof.
  induction m as [|m IH]; intros polls w Hle Hpending Hend.
  - simpl in *. destruct w as [c f o r t]. simpl in *. rewrite app_nil_r.
    destruct (c !! repo_key regUrl) as [[|v|]|];
      by destruct polls.
  - destruct polls as [|p]; [lia|].
    assert (H0 : repoCache w !! repo_key regUrl = Some Pending)
      by (apply (Hpending 0%nat); lia).
    rewrite H0. simpl wait_while_pending.
    unfold delay. run.
    set (w' := {| repoCache := other_tasks env (repoCache w);
                  files_ns := files_ns w; org_ns := org_ns w;
                  requests := requests w;
                  trace := trace w ++ [Delay 200] |}).
    change (other_tasks env (repoCache w)) with (repoCache w') at 1.
    rewrite (IH p w').
    + simpl. rewrite <- !Nat.iter_succ_r. simpl.
      by rewrite <- app_assoc.
    + lia.
    + intros j Hj. simpl. rewrite <- Nat.iter_succ_r. apply Hpending. lia.
    + simpl. by rewrite <- Nat.iter_succ_r.
Qed.

(** C1, as the code has it.  A stored [null] is not a terminal entry.
    A call that finds it does what a call that finds no entry does: it
    stores ['pending'] and requests the root document again; when that
    request fails it logs the failure, stores [null] again and returns
    [null]; otherwise it runs the assembly, which either returns the
    view and stores it, or throws and leaves ['pending'].  A call that
    finds a resolved entry returns the view and changes nothing.  A call
    that finds ['pending'] makes no request: it waits 200 ms before each
    read of the entry, and at the first read, after any number [m] of
    waits, that finds the entry no longer pending it returns what the
    entry then holds, [null] for a failed resolution and the view for a
    resolved one. *)
Theorem getAllPackages_failed_entry_is_not_permanent
  (env : Env) (regUrl : string) (w : World) :
  let k := repo_key regUrl in
  let u := root_url env regUrl in
  let out := getAllPackages env regUrl w in
  let fetched := {| repoCache := <[k := Pending]> (repoCache w);
                    files_ns := files_ns w; org_ns := org_ns w;
                    requests := S (requests w);
                    trace := trace w ++ [HttpGet u (getHostOpts env u)] |} in
  (repoCache w !! k = Some Failed ->
   out = getAllPackages env regUrl (forget regUrl w)
   /\ match root_document env (requests w) u (getHostOpts env u) with
      | inl _ =>
          exists level msg,
            out = (Ok Null,
                   with_entry regUrl Failed (logged fetched [Log level msg]))
      | inr r =>
          out = assembly env regUrl (registry_meta_of r) fetched
          /\ match fst out with
             | Ok res =>
                 exists v, res = Val v
                           /\ repoCache (snd out) !! k = Some (Resolved v)
             | _ => repoCache (snd out) !! k = Some Pending
             end
      end)
  /\ (forall v, repoCache w !! k = Some (Resolved v) -> out = (Ok (Val v), w))
  /\ (repoCache w !! k = Some Pending ->
      forall m,
        (1 <= m <= poll_budget env)%nat ->
        (forall j, (j < m)%nat ->
                   Nat.iter j (other_tasks env) (repoCache w) !! k
                   = Some Pending) ->
        Nat.iter m (other_tasks env) (repoCache w) !! k <> Some Pending ->
        out = (Ok (entry_value (Nat.iter m (other_tasks env) (repoCache w) !! k)),
               {| repoCache := Nat.iter m (other_tasks env) (repoCache w);
                  files_ns := files_ns w; org_ns := org_ns w;
                  requests := requests w;
                  trace := trace w ++ repeat (Delay 200) m |})
        /\ (Nat.iter m (other_tasks env) (repoCache w) !! k = Some Failed ->
            fst out = Ok Null)
        /\ (forall v,
              Nat.iter m (other_tasks env) (repoCache w) !! k
              = Some (Resolved v) ->
              fst out = Ok (Val v))).
Proof.
  intros k u out fetched. split; [|split].
  - intros H. split; [by apply getAllPackages_failed_as_absent|].
    assert (Hf : entry_truthy (repoCache w !! repo_key regUrl) = false)
      by (fold k; by rewrite H).
    subst out. rewrite (getAllPackages_fresh env regUrl w Hf).
    pose proof (getRegistryMeta_run env regUrl (with_entry regUrl Pending w))
      as Hrun.
    simpl in Hrun. fold u k in Hrun. fold fetched in Hrun.
    destruct (root_document env (requests w) u (getHostOpts env u)) as [e|r].
    + destruct Hrun as (level & msg & ->). by exists level, msg.
    + rewrite Hrun. split; [done|].
      pose proof (assembly_outcome env regUrl (registry_meta_of r) fetched)
        as Ha.
      destruct (assembly env regUrl (registry_meta_of r) fetched)
        as [[res|e|] w1]; simpl.
      * destruct Ha as (v & -> & ->). exists v. split; [done|].
        apply lookup_insert_eq.
      * rewrite Ha. apply lookup_insert_eq.
      * rewrite Ha. apply lookup_insert_eq.
  - intros v H. by apply getAllPackages_resolved_is_permanent.
  - intros H m Hm Hpending Hend.
    assert (Hout : out
                   = (Ok (entry_value
                            (Nat.iter m (other_tasks env) (repoCache w) !! k)),
                      {| repoCache := Nat.iter m (other_tasks env) (repoCache w);
                         files_ns := files_ns w; org_ns := org_ns w;
                         requests := requests w;
                         trace := trace w ++ repeat (Delay 200) m |})).
    { subst out. unfold getAllPackages. unfold bind at 1.
      unfold repo_read at 1. cbv beta iota. fold k. rewrite H.
      cbv beta iota delta [entry_truthy]. rewrite <- H.
      apply wait_while_pending_polls; [lia|done|done]. }
    split; [exact Hout|]. rewrite Hout. simpl. split.
    + by intros ->.
    + by intros v ->.
Qed.

(** C1, as stated, fails.  The first resolution of [flaky.example] times
    out and stores [null]; the next call for the same URL does not return
    that [null]: it requests the root document again, and this time the
    entry becomes a resolved view. *)
Lemma getAllPackages_failed_entry_is_retried :
  let regUrl := "https://flaky.example" in
  let u := "https://flaky.example/packages.json" in
  let first := getAllPackages Demo.env regUrl Demo.start in
  let second := getAllPackages Demo.env regUrl (snd first) in
  fst first = Ok Null
  /\ repoCache (snd first) !! repo_key regUrl = Some Failed
  /\ fst second = Ok (Val Demo.view)
  /\ fst second <> Ok Null
  /\ repoCache (snd second) !! repo_key regUrl = Some (Resolved Demo.view)
  /\ requests (snd second) = 2%nat
  /\ trace (snd second)
     = [HttpGet u no_opts; Log "debug" "Packagist timeout"; HttpGet u no_opts].
Proof. vm_compute. repeat split. discriminate. Qed.

(** Two runs.  After the failed resolution of [flaky.example] the next
    call is the call of a world without the entry.  And a call for
    [slow.example], whose entry is pending and fails during the second
    wait, returns [null] after two waits. *)
Lemma getAllPackages_failed_entry_is_not_permanent_witness :
  (let regUrl := "https://flaky.example" in
   let w := snd (getAllPackages Demo.env regUrl Demo.start) in
   repoCache w !! repo_key regUrl = Some Failed
   /\ getAllPackages Demo.env regUrl w
      = getAllPackages Demo.env regUrl (forget regUrl w))
  /\ (let out := getAllPackages Sample.slow_env "https://slow.example"
                   Sample.slow_start in
      fst out = Ok Null
      /\ trace (snd out) = [Delay 200; Delay 200]
      /\ requests (snd out) = 0%nat).
Proof.
  split.
  - intros regUrl w.
    assert (H : repoCache w !! repo_key regUrl = Some Failed)
      by (vm_compute; reflexivity).
    split; [exact H|].
    exact (proj1 (proj1 (getAllPackages_failed_entry_is_not_permanent
                           Demo.env regUrl w) H)).
  - intros out.
    destruct (proj2 (proj2 (getAllPackages_failed_entry_is_not_permanent
                              Sample.slow_env "https://slow.example"
                              Sample.slow_start))
                eq_refl 2%nat) as (Hout & _ & _).
    + simpl. lia.
    + intros [|[|j]] Hj; [reflexivity|reflexivity|lia].
    + discriminate.
    + subst out. rewrite Hout. repeat split.
Defined.

(** ** Instances on the small network *)

Lemma getPackagistFile_credentials_skip_cache_witness :
  let out := getPackagistFile Demo.env "https://private.example"
               Demo.shard_file Demo.start in
  trace (snd out)
  = [HttpGet "https://private.example/p/provider-latest$0123.json"
       {| auth := Some "user:secret"; headers := None |}]
  /\ files_ns (snd out) = ∅.
Proof.
  destruct (getPackagistFile_credentials_skip_cache Demo.env
              "https://private.example" Demo.shard_file Demo.start)
    as (_ & Ht & Hf & _).
  - left. reflexivity.
  - split; [exact Ht|exact Hf].
Defined.

Lemma getPackagistFile_refetch_iff_hash_differs_witness :
  let out := getPackagistFile Demo.env "https://b.example"
               Demo.shard_file Demo.start in
  requests (snd out) = requests Demo.start
  <-> fresh_record "https://b.example" Demo.shard_file Demo.start.
Proof.
  exact (proj1 (getPackagistFile_refetch_iff_hash_differs Demo.env
                  "https://b.example" Demo.shard_file Demo.start eq_refl)).
Defined.

Lemma getPackagistFile_partial_credentials_are_anonymous_witness :
  getHostOpts Demo.env "https://partial.example" = no_opts
  /\ exists rest,
       trace (snd (getPackagistFile Demo.env "https://partial.example"
                     Demo.shard_file Demo.start))
       = CacheGet files_namespace
           "https://partial.examplep/provider-latest$%hash%.json" :: rest.
Proof.
  destruct (getPackagistFile_partial_credentials_are_anonymous Demo.env
              "https://partial.example" Demo.shard_file Demo.start)
    as (Ho & Hread & _).
  - left. split; [by eexists|reflexivity].
  - split; [exact Ho|exact Hread].
Defined.

Lemma packageLookup_layout_priority_witness :
  packageLookup Demo.env "https://b.example" "vendor/pkg" Demo.start
  = (Ok (Val (Dep (set_name "vendor/pkg"
                     (extractDepReleases (Some Demo.versions))))),
     Demo.assembled).
Proof.
  apply (proj1 (packageLookup_layout_priority Demo.env "https://b.example"
                  "vendor/pkg" Demo.start Demo.view Demo.assembled
                  ltac:(discriminate) ltac:(vm_compute; reflexivity))).
  reflexivity.
Defined.

Lemma packageLookup_error_policy_witness :
  fst (packageLookup Demo.env default_registry "vendor/down" Demo.start)
  = Throw (DatasourceError (Raised (Demo.timed_out "packagist.org"))).
Proof.
  eapply (proj1 (packageLookup_error_policy Demo.env default_registry
                   "vendor/down" Demo.start)).
  - vm_compute. reflexivity.
  - intros [H|H]; discriminate H.
  - reflexivity.
  - right. left. reflexivity.
Defined.

Lemma packagistOrgLookup_stored_null_is_refetched_witness :
  let out := packagistOrgLookup Demo.env "vendor/missing" Demo.start in
  fst out = Ok Null
  /\ org_ns (snd out) !! "vendor/missing" = Some (None, 10)
  /\ requests (snd (packagistOrgLookup Demo.env "vendor/missing" (snd out)))
     = 2%nat.
Proof.
  destruct (packagistOrgLookup_stored_null_is_refetched Demo.env
              "vendor/missing" Demo.start {| pb_packages := Some [] |} [])
    as (Hr & Hs & _ & Hagain).
  - intros d ttl. vm_compute. discriminate.
  - reflexivity.
  - reflexivity.
  - right. split; reflexivity.
  - split; [exact Hr|]. split; [exact Hs|].
    exact (proj1 (Hagain _ 10 Hs)).
Defined.

(** * Further properties *)

(** ** Release normalizer: homepage and source URL *)

Lemma map_releases_homepage dep vs :
  homepage (fst (map_releases dep vs))
  = fold_left (fun h kv => str_or (rr_homepage (snd kv)) h) vs (homepage dep).
Proof.
  revert dep. induction vs as [|[k r] vs IH]; intros dep; [done|].
  simpl. specialize (IH (fst (release_of dep (k, r)))).
  simpl in IH. destruct (map_releases _ vs) as [d rs]. simpl in *.
  rewrite IH. by destruct (str_truthy (source_url r)).
Qed.

Lemma map_releases_sourceUrl dep vs :
  sourceUrl (fst (map_releases dep vs))
  = fold_left (fun u kv => str_or (source_url (snd kv)) u) vs (sourceUrl dep).
Proof.
  revert dep. induction vs as [|[k r] vs IH]; intros dep; [done|].
  simpl. specialize (IH (fst (release_of dep (k, r)))).
  simpl in IH. destruct (map_releases _ vs) as [d rs]. simpl in *.
  rewrite IH. unfold str_or. by destruct (str_truthy (source_url r)).
Qed.

(** The last truthy value of a property wins over a fold of [||]. *)
Lemma fold_str_or_falsy {A} (f : A -> option string) (xs : list A) h :
  (forall x, In x xs -> str_truthy (f x) = false) ->
  fold_left (fun h x => str_or (f x) h) xs h = h.
Proof.
  revert h. induction xs as [|x xs IH]; intros h H; [done|].
  simpl. unfold str_or at 2. rewrite (H x) by (by left).
  apply IH. intros y Hy. apply H. by right.
Qed.

Lemma fold_str_or_last {A} (f : A -> option string) (pre post : list A) x h :
  str_truthy (f x) = true ->
  (forall y, In y post -> str_truthy (f y) = false) ->
  fold_left (fun h x => str_or (f x) h) (pre ++ x :: post) h = f x.
Proof.
  intros Hx Hpost. rewrite fold_left_app. simpl.
  unfold str_or at 2. rewrite Hx. by apply fold_str_or_falsy.
Qed.

(** X1.  The homepage of the result is the homepage of the last version
    entry, in key order, that has a non-empty one; when no entry has one,
    the result has none. *)
Theorem extractDepReleases_homepage (vs : RawVersions) :
  ((forall kv, In kv vs -> str_truthy (rr_homepage (snd kv)) = false) ->
   homepage (extractDepReleases (Some vs)) = None)
  /\ (forall pre k r post,
        vs = (pre ++ (k, r) :: post)%list ->
        str_truthy (rr_homepage r) = true ->
        (forall kv, In kv post -> str_truthy (rr_homepage (snd kv)) = false) ->
        homepage (extractDepReleases (Some vs)) = rr_homepage r).
Proof.
  assert (H : homepage (extractDepReleases (Some vs))
              = fold_left (fun h kv => str_or (rr_homepage (snd kv)) h) vs None).
  { unfold extractDepReleases.
    pose proof (map_releases_homepage
                  {| name := None; releases := None;
                     homepage := None; sourceUrl := None |} vs) as Hm.
    by destruct (map_releases _ vs). }
  rewrite H. split.
  - intros Hn. by apply (fold_str_or_falsy (fun kv => rr_homepage (snd kv))).
  - intros pre k r post -> Hr Hpost.
    by apply (fold_str_or_last (fun kv => rr_homepage (snd kv))).
Qed.

(** X2.  The source URL of the result is [source.url] of the last version
    entry, in key order, that has a [source] with a non-empty [url]; an
    entry without one leaves the value of the earlier entries. *)
Theorem extractDepReleases_sourceUrl (vs : RawVersions) :
  ((forall kv, In kv vs -> str_truthy (source_url (snd kv)) = false) ->
   sourceUrl (extractDepReleases (Some vs)) = None)
  /\ (forall pre k r post,
        vs = (pre ++ (k, r) :: post)%list ->
        str_truthy (source_url r) = true ->
        (forall kv, In kv post -> str_truthy (source_url (snd kv)) = false) ->
        sourceUrl (extractDepReleases (Some vs)) = source_url r).
Proof.
  assert (H : sourceUrl (extractDepReleases (Some vs))
              = fold_left (fun u kv => str_or (source_url (snd kv)) u) vs None).
  { unfold extractDepReleases.
    pose proof (map_releases_sourceUrl
                  {| name := None; releases := None;
                     homepage := None; sourceUrl := None |} vs) as Hm.
    by destruct (map_releases _ vs). }
  rewrite H. split.
  - intros Hn. by apply (fold_str_or_falsy (fun kv => source_url (snd kv))).
  - intros pre k r post -> Hr Hpost.
    by apply (fold_str_or_last (fun kv => source_url (snd kv))).
Qed.

(** ** Host credentials *)

Lemma joined_nonempty (a b : string) : String.eqb (a ++ ":" ++ b) "" = false.
Proof. by destruct a. Qed.

(** X3.  [getHostOpts] never sets a header, and it sets [auth] exactly
    when the host rule has both a non-empty username and a non-empty
    password; so a request carries credentials if and only if both are
    configured. *)
Theorem getHostOpts_credentials_iff_both (env : Env) (u : string) :
  let rule := hostRules_find env id u in
  headers (getHostOpts env u) = None
  /\ has_credentials (getHostOpts env u)
     = str_truthy (username rule) && str_truthy (password rule)
  /\ auth (getHostOpts env u)
     = if str_truthy (username rule) && str_truthy (password rule)
       then Some (default "" (username rule) ++ ":"
                    ++ default "" (password rule))
       else None.
Proof.
  intros rule. unfold getHostOpts, has_credentials. fold rule.
  destruct (str_truthy (username rule) && str_truthy (password rule));
    simpl; [|done].
  by rewrite joined_nonempty.
Qed.

(** ** Shard names: the hash placeholder *)

Lemma append_cons (c : ascii) (a b : string) :
  String c a ++ b = String c (a ++ b).
Proof. reflexivity. Qed.

Lemma prefix_drop (p s : string) :
  String.prefix p s = true -> s = p ++ Js.drop (String.length p) s.
Proof.
  revert s. induction p as [|c p IH]; intros s H; [done|].
  destruct s as [|d s]; [done|].
  change (String.prefix (String c p) (String d s))
    with (match ascii_dec c d with
          | left _ => String.prefix p s
          | right _ => false
          end) in H.
  destruct (ascii_dec c d) as [->|]; [|done].
  simpl. rewrite append_cons. f_equal. by apply IH.
Qed.

Lemma split_first_sound (p s b a : string) :
  split_first p s = Some (b, a) -> s = b ++ p ++ a.
Proof.
  revert b. induction s as [|c s IH]; intros b.
  - unfold split_first. destruct (String.prefix p "") eqn:E; [|done].
    intros [= <- <-]. by apply prefix_drop.
  - change (split_first p (String c s))
      with (if String.prefix p (String c s)
            then Some (EmptyString, Js.drop (String.length p) (String c s))
            else match split_first p s with
                 | Some (b, a) => Some (String c b, a)
                 | None => None
                 end).
    destruct (String.prefix p (String c s)) eqn:E.
    + intros [= <- <-]. by apply prefix_drop.
    + destruct (split_first p s) as [[b' a']|]; [|done].
      intros [= <- <-]. rewrite append_cons. f_equal. by apply IH.
Qed.

Lemma substitution_plain (m b a r : string) :
  has_char "$" r = false -> substitution m b a r = r.
Proof.
  induction r as [|c r IH]; [done|]. simpl.
  intros H. apply orb_false_iff in H as [Hc Hr]. rewrite Hc.
  f_equal. by apply IH.
Qed.

Lemma prefix_placeholder_other (c : ascii) (s : string) :
  Ascii.eqb c "%" = false -> String.prefix "%hash%" (String c s) = false.
Proof.
  intros H.
  change (String.prefix "%hash%" (String c s))
    with (match ascii_dec "%" c with
          | left _ => String.prefix "hash%" s
          | right _ => false
          end).
  destruct (ascii_dec "%" c) as [<-|]; done.
Qed.

Lemma split_first_placeholder (pre post : string) :
  has_char "%" pre = false ->
  split_first "%hash%" (pre ++ "%hash%" ++ post) = Some (pre, post).
Proof.
  induction pre as [|c pre IH]; intros H.
  - by destruct post.
  - simpl in H. apply orb_false_iff in H as [Hc Hp].
    change (split_first "%hash%" (String c pre ++ "%hash%" ++ post))
      with (if String.prefix "%hash%" (String c (pre ++ "%hash%" ++ post))
            then Some (EmptyString,
                       Js.drop (String.length "%hash%")
                         (String c (pre ++ "%hash%" ++ post)))
            else match split_first "%hash%" (pre ++ "%hash%" ++ post) with
                 | Some (b, a) => Some (String c b, a)
                 | None => None
                 end).
    rewrite (prefix_placeholder_other c _ Hc). by rewrite (IH Hp).
Qed.

Lemma split_first_no_placeholder (s : string) :
  has_char "%" s = false -> split_first "%hash%" s = None.
Proof.
  induction s as [|c s IH]; intros H; [done|].
  simpl in H. apply orb_false_iff in H as [Hc Hs].
  change (split_first "%hash%" (String c s))
    with (if String.prefix "%hash%" (String c s)
          then Some (EmptyString,
                     Js.drop (String.length "%hash%") (String c s))
          else match split_first "%hash%" s with
               | Some (b, a) => Some (String c b, a)
               | None => None
               end).
  rewrite (prefix_placeholder_other c _ Hc). by rewrite (IH Hs).
Qed.

(** X4.  The key of an includes file is re-expanded to the published file
    name: when the hash occurs in the name after a part without [%], and
    the hash has no [$], the shard is fetched at [regUrl/name]; the same
    holds for a name without [%] in which the hash does not occur. *)
Theorem includes_file_name_round_trip (regUrl n sha : string) :
  has_char "$" sha = false ->
  (forall pre post,
      split_first sha n = Some (pre, post) ->
      has_char "%" pre = false ->
      key (includes_file (n, {| sha256 := sha |})) = pre ++ "%hash%" ++ post
      /\ shard_url regUrl (includes_file (n, {| sha256 := sha |}))
         = regUrl ++ "/" ++ n)
  /\ (split_first sha n = None ->
      has_char "%" n = false ->
      shard_url regUrl (includes_file (n, {| sha256 := sha |}))
      = regUrl ++ "/" ++ n).
Proof.
  intros Hsha. split.
  - intros pre post Hsplit Hpre.
    assert (Hk : key (includes_file (n, {| sha256 := sha |}))
                 = pre ++ "%hash%" ++ post).
    { unfold includes_file, replace. simpl. by rewrite Hsplit. }
    split; [exact Hk|].
    unfold shard_url. rewrite Hk. unfold replace.
    rewrite (split_first_placeholder pre post Hpre).
    unfold includes_file. simpl.
    rewrite (substitution_plain _ _ _ sha Hsha).
    by rewrite (split_first_sound sha n pre post Hsplit).
  - intros Hsplit Hn. unfold shard_url, includes_file, replace. simpl.
    rewrite Hsplit. by rewrite (split_first_no_placeholder n Hn).
Qed.

(** ** Assembly: later entries overwrite earlier ones *)

Lemma hash_set_lookup (k sha : string) (m : gmap string string) (n : string) :
  hash_set k sha m !! n
  = if String.eqb k "__proto__" then m !! n
    else if String.eqb k n then Some sha else m !! n.
Proof.
  unfold hash_set. destruct (String.eqb k "__proto__"); [done|].
  destruct (String.eqb_spec k n) as [->|Hne].
  - apply lookup_insert_eq.
  - by apply lookup_insert_ne.
Qed.

(** Entries under another name, or under [__proto__], leave [m[n]] as it
    is. *)
Lemma merge_providers_other (o : Dict Sha) (m : gmap string string) (n : string) :
  (forall e, In e o -> fst e <> n \/ fst e = "__proto__") ->
  merge_providers o m !! n = m !! n.
Proof.
  unfold merge_providers. revert m.
  induction o as [|e o IH]; intros m H; [done|].
  simpl. rewrite IH by (intros e' He'; apply H; by right).
  rewrite hash_set_lookup.
  destruct (H e (or_introl eq_refl)) as [Hne| ->]; [|done].
  destruct (String.eqb (fst e) "__proto__"); [done|].
  apply String.eqb_neq in Hne. by rewrite Hne.
Qed.

Lemma includes_set_own (k : string) (dep : ReleaseResult) (inc : Includes)
  (n : string) :
  inc_own (includes_set k dep inc) !! n
  = if String.eqb k "__proto__" then inc_own inc !! n
    else if String.eqb k n then Some dep else inc_own inc !! n.
Proof.
  unfold includes_set. destruct (String.eqb k "__proto__"); [done|].
  simpl. destruct (String.eqb_spec k n) as [->|Hne].
  - apply lookup_insert_eq.
  - by apply lookup_insert_ne.
Qed.

Lemma includes_set_proto (k : string) (dep : ReleaseResult) (inc : Includes) :
  inc_proto (includes_set k dep inc)
  = if String.eqb k "__proto__" then Some dep else inc_proto inc.
Proof. unfold includes_set. by destruct (String.eqb k "__proto__"). Qed.

Lemma merge_includes_app (o1 o2 : Dict (option RawVersions)) (inc : Includes) :
  merge_includes (o1 ++ o2)%list inc = merge_includes o2 (merge_includes o1 inc).
Proof. unfold merge_includes. apply fold_left_app. Qed.

Lemma merge_includes_cons (e : string * option RawVersions)
  (o : Dict (option RawVersions)) (inc : Includes) :
  merge_includes (e :: o) inc
  = merge_includes o
      (includes_set (fst e) (set_name (fst e) (extractDepReleases (snd e))) inc).
Proof. done. Qed.

Lemma merge_includes_own_other (o : Dict (option RawVersions)) (inc : Includes)
  (n : string) :
  (forall e, In e o -> fst e <> n \/ fst e = "__proto__") ->
  inc_own (merge_includes o inc) !! n = inc_own inc !! n.
Proof.
  revert inc. induction o as [|e o IH]; intros inc H; [done|].
  rewrite merge_includes_cons, IH by (intros e' He'; apply H; by right).
  rewrite includes_set_own.
  destruct (H e (or_introl eq_refl)) as [Hne| ->]; [|done].
  destruct (String.eqb (fst e) "__proto__"); [done|].
  apply String.eqb_neq in Hne. by rewrite Hne.
Qed.

Lemma merge_includes_proto_other (o : Dict (option RawVersions)) (inc : Includes) :
  (forall e, In e o -> fst e <> "__proto__") ->
  inc_proto (merge_includes o inc) = inc_proto inc.
Proof.
  revert inc. induction o as [|e o IH]; intros inc H; [done|].
  rewrite merge_includes_cons, IH by (intros e' He'; apply H; by right).
  rewrite includes_set_proto.
  pose proof (H e (or_introl eq_refl)) as Hne.
  apply String.eqb_neq in Hne. by rewrite Hne.
Qed.

Lemma extractDepReleases_has_releases (v : option RawVersions) :
  is_Some (releases (extractDepReleases v)).
Proof.
  unfold extractDepReleases. destruct v as [vs|]; [|by eexists].
  destruct (map_releases _ vs). by eexists.
Qed.

(** X5.  Merging the [providers] of a document into the package hashes
    keeps the hash of every package the document does not name, and gives
    a package it names the hash of its last entry: the root document is
    overwritten by the shards, and a shard by the later shards.  The one
    name that is never given a hash is [__proto__]: an entry under it
    changes nothing, whatever the document says. *)
Theorem merge_providers_last_wins (o : Dict Sha) (m : gmap string string)
  (n : string) :
  ((forall e, In e o -> fst e <> n) -> merge_providers o m !! n = m !! n)
  /\ (forall pre v post,
        n <> "__proto__" ->
        o = (pre ++ (n, v) :: post)%list ->
        (forall e, In e post -> fst e <> n) ->
        merge_providers o m !! n = Some (sha256 v))
  /\ merge_providers o m !! "__proto__" = m !! "__proto__"
  /\ (forall pre v post,
        o = (pre ++ ("__proto__", v) :: post)%list ->
        merge_providers o m = merge_providers (pre ++ post)%list m).
Proof.
  split; [|split; [|split]].
  - intros H. apply merge_providers_other. intros e He. left. by apply H.
  - intros pre v post Hn -> H. unfold merge_providers.
    rewrite fold_left_app. simpl.
    change (fold_left _ post ?a) with (merge_providers post a).
    rewrite merge_providers_other by (intros e He; left; by apply H).
    rewrite hash_set_lookup. apply String.eqb_neq in Hn. rewrite Hn.
    by rewrite String.eqb_refl.
  - apply merge_providers_other. intros e He.
    destruct (String.eqb_spec (fst e) "__proto__"); [by right|by left].
  - intros pre v post ->. unfold merge_providers.
    by rewrite !fold_left_app.
Qed.

(** X6.  Merging the [packages] of an includes shard gives every package
    it names, other than [__proto__], an own entry: the normalized
    releases of its last entry, under the package's own name, and for a
    package mapped to [null] an empty list of releases.  The own entries
    of the names it does not mention are kept, and when it has no
    [__proto__] entry every read of such a name gives what it gave
    before.  An entry under [__proto__] creates no own entry: its
    release result becomes the prototype of [includesPackages], so that
    a read of [__proto__] gives that release result and a read of
    [releases], when no package of that name was stored, gives its list
    of releases. *)
Theorem merge_includes_last_wins (o : Dict (option RawVersions))
  (m : Includes) (n : string) :
  ((forall e, In e o -> fst e <> n) ->
     inc_own (merge_includes o m) !! n = inc_own m !! n
     /\ ((forall e, In e o -> fst e <> "__proto__") ->
         includes_get (merge_includes o m) n = includes_get m n))
  /\ (forall pre v post,
        n <> "__proto__" ->
        o = (pre ++ (n, v) :: post)%list ->
        (forall e, In e post -> fst e <> n) ->
        exists dep,
          inc_own (merge_includes o m) !! n = Some dep
          /\ includes_get (merge_includes o m) n = Some (Dep dep)
          /\ name dep = Some n
          /\ dep = set_name n (extractDepReleases v)
          /\ (v = None -> releases dep = Some []))
  /\ inc_own (merge_includes o m) !! "__proto__" = inc_own m !! "__proto__"
  /\ (forall pre v post,
        o = (pre ++ ("__proto__", v) :: post)%list ->
        (forall e, In e post -> fst e <> "__proto__") ->
        let dep := set_name "__proto__" (extractDepReleases v) in
        inc_proto (merge_includes o m) = Some dep
        /\ (inc_own m !! "__proto__" = None ->
            includes_get (merge_includes o m) "__proto__" = Some (Dep dep))
        /\ (inc_own (merge_includes o m) !! "releases" = None ->
            exists rs,
              releases (extractDepReleases v) = Some rs
              /\ includes_get (merge_includes o m) "releases"
                 = Some (ReleaseList rs))).
Proof.
  assert (Hproto : inc_own (merge_includes o m) !! "__proto__"
                   = inc_own m !! "__proto__").
  { apply merge_includes_own_other. intros e He.
    destruct (String.eqb_spec (fst e) "__proto__"); [by right|by left]. }
  split; [|split; [|split]].
  - intros H.
    assert (Hown : inc_own (merge_includes o m) !! n = inc_own m !! n).
    { apply merge_includes_own_other. intros e He. left. by apply H. }
    split; [done|]. intros Hp. unfold includes_get.
    by rewrite Hown, merge_includes_proto_other.
  - intros pre v post Hn -> H.
    assert (Hown : inc_own (merge_includes (pre ++ (n, v) :: post)%list m) !! n
                   = Some (set_name n (extractDepReleases v))).
    { rewrite merge_includes_app, merge_includes_cons.
      rewrite merge_includes_own_other by (intros e He; left; by apply H).
      rewrite includes_set_own. simpl. apply String.eqb_neq in Hn.
      rewrite Hn. by rewrite String.eqb_refl. }
    eexists. split; [exact Hown|]. split.
    + unfold includes_get. by rewrite Hown.
    + repeat split. by intros ->.
  - exact Hproto.
  - intros pre v post -> H dep.
    assert (Hp : inc_proto (merge_includes (pre ++ ("__proto__", v) :: post)%list m)
                 = Some dep).
    { rewrite merge_includes_app, merge_includes_cons.
      rewrite merge_includes_proto_other by done.
      by rewrite includes_set_proto. }
    split; [exact Hp|]. split.
    + intros Hm. unfold includes_get. by rewrite Hproto, Hm, Hp.
    + intros Hr. destruct (extractDepReleases_has_releases v) as [rs Hrs].
      exists rs. split; [done|].
      unfold includes_get. rewrite Hr, Hp. simpl.
      unfold proto_property. simpl. subst dep.
      by rewrite Hrs.
Qed.

(** ** Cache round trips *)

(** X7.  A shard fetched without credentials is served from the
    persistent cache by the next call for the same descriptor: the same
    content, one cache read, no request and no write. *)
Theorem getPackagistFile_second_call_is_cached
  (env : Env) (regUrl : string) (file : RegistryFile) (w w1 : World)
  (body : PackagistFile) :
  has_credentials (getHostOpts env regUrl) = false ->
  getPackagistFile env regUrl file w = (Ok body, w1) ->
  getPackagistFile env regUrl file w1
  = (Ok body, logged w1 [CacheGet files_namespace (regUrl ++ key file)]).
Proof.
  intros Hc Hfirst.
  assert (Hrec : exists ttl,
             files_ns w1 !! (regUrl ++ key file)
             = Some ({| res := body; rec_sha256 := file_sha256 file |}, ttl)).
  { rewrite (getPackagistFile_anonymous env regUrl file w Hc) in Hfirst.
    cbv zeta in Hfirst.
    destruct (files_ns w !! (regUrl ++ key file)) as [[r ttl]|] eqn:Hk.
    - destruct (String.eqb (rec_sha256 r) (file_sha256 file)) eqn:E.
      + injection Hfirst as <- <-. simpl. exists ttl. rewrite Hk.
        apply String.eqb_eq in E. destruct r. simpl in *. by subst.
      + destruct (shard_document env _ _ _); [done|].
        injection Hfirst as <- <-. simpl. exists 1440.
        apply lookup_insert_eq.
    - destruct (shard_document env _ _ _); [done|].
      injection Hfirst as <- <-. simpl. exists 1440. apply lookup_insert_eq. }
  destruct Hrec as [ttl Hrec].
  rewrite (getPackagistFile_anonymous env regUrl file w1 Hc). cbv zeta.
  rewrite Hrec. simpl. by rewrite String.eqb_refl.
Qed.

Lemma packagistOrgLookup_hit (env : Env) (n : string) (w : World)
  (d : ReleaseResult) (ttl : Z) :
  org_ns w !! n = Some (Some d, ttl) ->
  packagistOrgLookup env n w = (Ok (Val d), logged w [CacheGet org_namespace n]).
Proof.
  intros H. unfold packagistOrgLookup. run. by rewrite H.
Qed.

(** X8.  A release result answered by the default-registry lookup is
    served from the cache by the next lookup of the same name: the same
    result, one cache read and no request. *)
Theorem packagistOrgLookup_second_call_is_cached
  (env : Env) (n : string) (w w1 : World) (d : ReleaseResult) :
  packagistOrgLookup env n w = (Ok (Val d), w1) ->
  packagistOrgLookup env n w1
  = (Ok (Val d), logged w1 [CacheGet org_namespace n]).
Proof.
  intros Hfirst.
  assert (Hrec : exists ttl, org_ns w1 !! n = Some (Some d, ttl)).
  { destruct (org_ns w !! n) as [[[d'|] ttl]|] eqn:Hk.
    - rewrite (packagistOrgLookup_hit env n w d' ttl Hk) in Hfirst.
      injection Hfirst as <- <-. by exists ttl.
    - rewrite packagistOrgLookup_miss in Hfirst
        by (intros d' t; rewrite Hk; congruence).
      cbv zeta in Hfirst.
      destruct (package_document env _ _ _) as [e|b]; [done|].
      destruct (pb_packages b) as [o|]; [|done].
      destruct (versions_of o n); [|done].
      injection Hfirst as <- <-. simpl. exists 10. apply lookup_insert_eq.
    - rewrite packagistOrgLookup_miss in Hfirst
        by (intros d' t; rewrite Hk; congruence).
      cbv zeta in Hfirst.
      destruct (package_document env _ _ _) as [e|b]; [done|].
      destruct (pb_packages b) as [o|]; [|done].
      destruct (versions_of o n); [|done].
      injection Hfirst as <- <-. simpl. exists 10. apply lookup_insert_eq. }
  destruct Hrec as [ttl Hrec]. by apply (packagistOrgLookup_hit env n w1 d ttl).
Qed.

(** ** Registry resolution: what a call leaves in the cache *)

Lemma getRegistryMeta_keeps_repo env regUrl : keeps_repo (getRegistryMeta env regUrl).
Proof.
  intros w. pose proof (getRegistryMeta_run env regUrl w) as H. simpl in H.
  destruct (root_document env _ _ _).
  - by destruct H as (l & m & ->).
  - by rewrite H.
Qed.

Lemma getRegistryMeta_returns env regUrl w :
  exists r, fst (getRegistryMeta env regUrl w) = Ok r.
Proof.
  pose proof (getRegistryMeta_run env regUrl w) as H. simpl in H.
  destruct (root_document env _ _ _).
  - destruct H as (l & m & ->). by eexists.
  - rewrite H. by eexists.
Qed.

Lemma wait_while_pending_outcome env polls regUrl w :
  match wait_while_pending env polls regUrl (repoCache w !! repo_key regUrl) w with
  | (Ok r, w1) =>
      r = entry_value (repoCache w1 !! repo_key regUrl)
      /\ repoCache w1 !! repo_key regUrl <> Some Pending
      /\ requests w1 = requests w
  | (Throw _, _) => False
  | (Hang, w1) => requests w1 = requests w
  end.
Proof.
  revert w. induction polls as [|p IH]; intros w.
  - simpl. destruct (repoCache w !! repo_key regUrl) as [[|v|]|] eqn:E;
      simpl; rewrite ?E; done.
  - simpl. destruct (repoCache w !! repo_key regUrl) as [[|v|]|] eqn:E;
      simpl; rewrite ?E; try done.
    unfold delay. run.
    match goal with
    | |- context [wait_while_pending env p regUrl _ ?w'] => specialize (IH w')
    end.
    simpl in IH.
    destruct (wait_while_pending env p regUrl _ _) as [[r|e|] w1]; done.
Qed.

(** X9.  Once [getAllPackages] has returned a view, the registry is
    resolved for good: the next call for the same URL returns the same
    view and changes nothing, so it makes no request, whatever the
    network would answer. *)
Theorem getAllPackages_resolution_is_memoized
  (env : Env) (regUrl : string) (w w1 : World) (v : AllPackages) :
  getAllPackages env regUrl w = (Ok (Val v), w1) ->
  repoCache w1 !! repo_key regUrl = Some (Resolved v)
  /\ getAllPackages env regUrl w1 = (Ok (Val v), w1).
Proof.
  intros Hfirst.
  assert (H : repoCache w1 !! repo_key regUrl = Some (Resolved v)).
  { destruct (entry_truthy (repoCache w !! repo_key regUrl)) eqn:Ht.
    - unfold getAllPackages in Hfirst. revert Hfirst. run. rewrite Ht.
      intros Hfirst.
      pose proof (wait_while_pending_outcome env (poll_budget env) regUrl w)
        as Hw.
      rewrite Hfirst in Hw. destruct Hw as (Hv & _ & _).
      by destruct (repoCache w1 !! repo_key regUrl) as [[|v'|]|];
        simpl in Hv; try done; injection Hv as ->.
    - rewrite (getAllPackages_fresh env regUrl w Ht) in Hfirst.
      destruct (getRegistryMeta env regUrl _) as [[[meta|]|e|] w2];
        try done.
      pose proof (assembly_outcome env regUrl meta w2) as Ha.
      rewrite Hfirst in Ha. destruct Ha as (v' & [= <-] & ->).
      apply lookup_insert_eq. }
  split; [exact H|]. by apply getAllPackages_resolved_is_permanent.
Qed.

Lemma wait_while_pending_stuck env polls regUrl w :
  (forall c, c !! repo_key regUrl = Some Pending ->
             other_tasks env c !! repo_key regUrl = Some Pending) ->
  repoCache w !! repo_key regUrl = Some Pending ->
  fst (wait_while_pending env polls regUrl (Some Pending) w) = Hang.
Proof.
  intros Hother. revert w. induction polls as [|p IH]; intros w Hw; [done|].
  simpl. unfold delay. run. rewrite (Hother _ Hw). apply IH. simpl.
  by apply Hother.
Qed.

(** X10.  When [getAllPackages] throws (a shard fetch fails, or a
    provider shard has no [providers]), the entry it installed stays
    ['pending']: nothing resets it.  A later call for the same URL then
    only polls: it makes no request and, unless another task replaces the
    entry, it never returns. *)
Theorem getAllPackages_throw_leaves_pending
  (env : Env) (regUrl : string) (w w1 : World) (e : Exn) :
  getAllPackages env regUrl w = (Throw e, w1) ->
  repoCache w1 !! repo_key regUrl = Some Pending
  /\ requests (snd (getAllPackages env regUrl w1)) = requests w1
  /\ ((forall c, c !! repo_key regUrl = Some Pending ->
                 other_tasks env c !! repo_key regUrl = Some Pending) ->
      fst (getAllPackages env regUrl w1) = Hang).
Proof.
  intros Hthrow.
  assert (H : repoCache w1 !! repo_key regUrl = Some Pending).
  { destruct (entry_truthy (repoCache w !! repo_key regUrl)) eqn:Ht.
    - unfold getAllPackages in Hthrow. revert Hthrow. run. rewrite Ht.
      intros Hthrow.
      pose proof (wait_while_pending_outcome env (poll_budget env) regUrl w)
        as Hw.
      by rewrite Hthrow in Hw.
    - rewrite (getAllPackages_fresh env regUrl w Ht) in Hthrow.
      pose proof (getRegistryMeta_keeps_repo env regUrl
                    (with_entry regUrl Pending w)) as Hk.
      pose proof (getRegistryMeta_returns env regUrl
                    (with_entry regUrl Pending w)) as [r Hr].
      destruct (getRegistryMeta env regUrl _) as [[[meta|]|e'|] w2];
        try done.
      pose proof (assembly_outcome env regUrl meta w2) as Ha.
      rewrite Hthrow in Ha. rewrite Ha. simpl in Hk. rewrite Hk.
      apply lookup_insert_eq. }
  split; [exact H|].
  assert (Hrun : getAllPackages env regUrl w1
                 = wait_while_pending env (poll_budget env) regUrl
                     (repoCache w1 !! repo_key regUrl) w1).
  { unfold getAllPackages. run. by rewrite H. }
  split.
  - rewrite Hrun.
    pose proof (wait_while_pending_outcome env (poll_budget env) regUrl w1)
      as Hw.
    destruct (wait_while_pending env _ regUrl _ w1) as [[r|e'|] w2];
      simpl; [by destruct Hw as (_ & _ & ?)|done|done].
  - intros Hother. rewrite Hrun, H. by apply wait_while_pending_stuck.
Qed.

(** ** Lookup: soft failures and the fast path *)

(** X11.  On a registry other than the default one that has no usable
    entry, an error of the root fetch, whatever it is and whatever host
    it names, makes [packageLookup] answer [null] without throwing: one
    request was made, and the entry of the registry is [null]. *)
Theorem packageLookup_unreachable_registry_is_null
  (env : Env) (regUrl n : string) (w : World) (e : JsError) :
  regUrl <> default_registry ->
  entry_truthy (repoCache w !! repo_key regUrl) = false ->
  root_document env (requests w) (root_url env regUrl)
    (getHostOpts env (root_url env regUrl)) = inl e ->
  let out := packageLookup env regUrl n w in
  fst out = Ok Null
  /\ repoCache (snd out) !! repo_key regUrl = Some Failed
  /\ requests (snd out) = S (requests w).
Proof.
  intros Hne Hf Hdoc out. subst out.
  unfold packageLookup, lookup_attempt, try_catch, bind.
  apply String.eqb_neq in Hne. rewrite Hne.
  rewrite (getAllPackages_fresh env regUrl w Hf).
  pose proof (getRegistryMeta_run env regUrl (with_entry regUrl Pending w))
    as Hrun.
  simpl in Hrun. rewrite Hdoc in Hrun. destruct Hrun as (l & m & ->).
  simpl. by rewrite lookup_insert_eq.
Qed.

Lemma lookup_failure_world n err w :
  exists events, snd (lookup_failure n err w) = logged w events.
Proof.
  unfold lookup_failure, logged.
  repeat match goal with
         | |- context [if ?b then _ else _] => destruct b
         end; run;
    try (by eexists; rewrite <- app_assoc);
    try (by eexists);
    exists []; destruct w; simpl; by rewrite app_nil_r.
Qed.

(** X12.  The lookup in the default registry does not touch the general
    engine: [global.repoCache] and the cached shard files are left as
    they are, whether the lookup answers or throws, and at most one
    request is made. *)
Theorem packageLookup_default_registry_fast_path
  (env : Env) (n : string) (w : World) :
  let out := packageLookup env default_registry n w in
  repoCache (snd out) = repoCache w
  /\ files_ns (snd out) = files_ns w
  /\ (requests (snd out) <= S (requests w))%nat.
Proof.
  intros out. subst out. rewrite packageLookup_default.
  assert (Hmiss : (forall d ttl, org_ns w !! n <> Some (Some d, ttl)) ->
                  let out := match packagistOrgLookup env n w with
                             | (Ok r, w') => (Ok (as_value r), w')
                             | (Throw e, w') => lookup_failure n e w'
                             | (Hang, w') => (Hang, w')
                             end in
                  repoCache (snd out) = repoCache w
                  /\ files_ns (snd out) = files_ns w
                  /\ (requests (snd out) <= S (requests w))%nat).
  { intros Hm. rewrite (packagistOrgLookup_miss env n w Hm). cbv zeta.
    destruct (package_document env _ _ _) as [e|b].
    - match goal with
      | |- context [lookup_failure n ?x ?w'] =>
          destruct (lookup_failure_world n x w') as [events ->]
      end.
      simpl. repeat split; lia.
    - destruct (pb_packages b) as [o|].
      + destruct (versions_of o n); simpl; repeat split; lia.
      + match goal with
        | |- context [lookup_failure n ?x ?w'] =>
            destruct (lookup_failure_world n x w') as [events ->]
        end.
        simpl. repeat split; lia. }
  destruct (org_ns w !! n) as [[[d|] ttl]|] eqn:Hk.
  - rewrite (packagistOrgLookup_hit env n w d ttl Hk). simpl.
    repeat split; lia.
  - apply Hmiss. intros d t. congruence.
  - apply Hmiss. intros d t. congruence.
Qed.

(** X13.  A package that a registry lists by provider hash only (both
    [packages[name]] and [includesPackages[name]] are falsy, which rules
    out the names that every object inherits), while the registry
    publishes no [providers-url], is answered by [null]: the lookup makes
    no request, and the error of the missing template is logged as a
    warning instead of being thrown. *)
Theorem packageLookup_without_providers_url
  (env : Env) (regUrl n : string) (w : World) (all : AllPackages) (w1 : World)
  (hash : string) :
  regUrl <> default_registry ->
  getAllPackages env regUrl w = (Ok (Val all), w1) ->
  flat_entry all n = None ->
  includes_get (includesPackages all) n = None ->
  providerPackages all !! n = Some hash -> hash <> "" ->
  providersUrl all = None ->
  packageLookup env regUrl n w
  = (Ok Null,
     logged w1 [Log "warn" "packagist registry failure: Unknown error"]).
Proof.
  intros Hne Hget Hflat Hincl Hprov Hh Hurl.
  rewrite (packageLookup_in_view env regUrl n w all w1 Hne Hget).
  unfold try_catch, lookup_in. unfold flat_entry in Hflat.
  change (packages all ≫= (fun o => versions_of o n))
    with (match packages all with
          | Some o => versions_of o n
          | None => None
          end).
  rewrite Hflat, Hincl, Hprov. apply String.eqb_neq in Hh. simpl.
  rewrite Hh. simpl. unfold provider_lookup. rewrite Hurl. simpl.
  destruct (lookup_failure_cases n (Raised TypeError) w1) as (_ & _ & H3).
  apply H3.
  - intros [H|H]; discriminate H.
  - intros [H _]. discriminate H.
Qed.

(** X14.  A [DatasourceError] of one registry ends [getReleases]: when
    the registries before it answered [null] and its lookup throws, the
    call throws the same error and the later registries are not looked
    up. *)
Theorem getReleases_escalation_stops_the_loop
  (env : Env) (n : string) (pre : list string) (r : string)
  (post : list string) (x : Exn) (w : World) :
  let w0 := logged w [Log "trace" ("getReleases(" ++ n ++ ")")] in
  all_soft_fail env n pre w0 ->
  fst (packageLookup env r n (world_after env n pre w0)) = Throw x ->
  getReleases env n (Some (pre ++ r :: post)%list) w
  = (Throw x, snd (packageLookup env r n (world_after env n pre w0))).
Proof.
  intros w0 Hpre Hr.
  assert (Hrun : getReleases env n (Some (pre ++ r :: post)%list) w
                 = try_registries env n Undefined (pre ++ r :: post) w0).
  { unfold getReleases. run. by destruct pre. }
  rewrite Hrun. clear Hrun. generalize (@Undefined Value).
  revert Hpre Hr. generalize w0. clear w0 w.
  induction pre as [|q pre IH]; intros w Hpre Hr r0; simpl in *.
  - unfold bind. destruct (packageLookup env r n w) as [o w1]. simpl in *.
    by subst o.
  - apply all_soft_fail_cons in Hpre as [Hq Hpre]. unfold bind.
    destruct (packageLookup env q n w) as [o w1] eqn:E. simpl in *. subst o.
    simpl. by apply IH.
Qed.

(** ** Registry URLs and the trailing slash *)

Lemma endsWith_slash_appended (s : string) : endsWith (s ++ "/") "/" = true.
Proof.
  induction s as [|c s IH]; [done|].
  rewrite append_cons. simpl. rewrite IH. apply orb_true_r.
Qed.

Lemma append_length (a b : string) :
  String.length (a ++ b) = (String.length a + String.length b)%nat.
Proof. induction a as [|c a IH]; simpl; [done|]. by rewrite IH. Qed.

(** X15.  The root document of a registry is requested at the same URL
    whether or not the registry URL is written with a final slash, but
    the two spellings have different entries in [global.repoCache]: they
    are resolved independently. *)
Theorem root_url_ignores_trailing_slash (env : Env) (regUrl : string) :
  endsWith regUrl "/" = false ->
  root_url env (regUrl ++ "/") = root_url env regUrl
  /\ repo_key (regUrl ++ "/") <> repo_key regUrl.
Proof.
  intros H. split.
  - unfold root_url, with_trailing_slash.
    by rewrite endsWith_slash_appended, H.
  - unfold repo_key. intros E.
    assert (L : String.length ("packagist-" ++ (regUrl ++ "/"))
                = String.length ("packagist-" ++ regUrl)) by (by rewrite E).
    rewrite !append_length in L. simpl in L. lia.
Qed.

(** ** The cost of a resolution *)

Lemma costs_ret {A} (a : A) : costs 0 (ret a).
Proof. intros w. simpl. lia. Qed.

Lemma costs_throw {A} (e : Exn) : costs 0 (@throw A e).
Proof. intros w. simpl. lia. Qed.

Lemma costs_weaken {A} (j k : nat) (m : M A) :
  (j <= k)%nat -> costs j m -> costs k m.
Proof. intros L H w. specialize (H w). lia. Qed.

Lemma costs_bind {A B} (j k : nat) (m : M A) (f : A -> M B) :
  costs j m -> (forall a, costs k (f a)) -> costs (j + k) (bind m f).
Proof.
  intros Hm Hf w. unfold bind. specialize (Hm w).
  destruct (m w) as [[a|e|] w1]; simpl in *; try lia.
  specialize (Hf a w1). lia.
Qed.

Lemma costs_request {A} (answer : nat -> string -> HttpOptions -> JsError + A)
  u opts : costs 1 (request answer u opts).
Proof. intros w. unfold request. destruct (answer _ _ _); simpl; lia. Qed.

Lemma costs_getPackagistFile env regUrl file :
  costs 1 (getPackagistFile env regUrl file).
Proof.
  intros w. unfold getPackagistFile.
  destruct (has_credentials _); [apply costs_request|].
  run. destruct (fst <$> files_ns w !! _) as [r|]; simpl.
  - destruct (String.eqb _ _); simpl; [lia|].
    destruct (shard_document env _ _ _); simpl; lia.
  - destruct (shard_document env _ _ _); simpl; lia.
Qed.

Lemma costs_all {A B} (f : A -> M B) (xs : list A) :
  (forall x, costs 1 (f x)) -> costs (length xs) (all f xs).
Proof.
  intros Hf. induction xs as [|x xs IH]; simpl.
  - apply costs_ret.
  - apply (costs_bind 1 (length xs)); [apply Hf|]. intros b.
    apply (costs_weaken (length xs + 0)); [lia|].
    apply costs_bind; [apply IH|]. intros bs. apply costs_ret.
Qed.

Lemma costs_for_each {A S} (k : nat) (xs : list A) (body : S -> A -> M S) s :
  (forall s x, costs k (body s x)) -> costs (length xs * k) (for_each xs body s).
Proof.
  intros Hb. revert s. induction xs as [|x xs IH]; intros s; simpl.
  - apply costs_ret.
  - apply costs_bind; [apply Hb|apply IH].
Qed.

Lemma costs_assembly env regUrl meta :
  costs (length (default [] (files meta))
         + length (default [] (includesFiles meta)))
    (assembly env regUrl meta).
Proof.
  unfold assembly. apply costs_bind.
  { destruct (files meta) as [fs|]; simpl; [|apply costs_ret].
    apply (costs_weaken (length fs + 0)); [lia|]. apply costs_bind.
    - apply costs_all. intros x. apply costs_getPackagistFile.
    - intros rs. apply (costs_weaken (length rs * 0)); [lia|].
      apply costs_for_each. intros m r. unfold merge_shard.
      destruct (providers r); [apply costs_ret|apply costs_throw]. }
  intros pp.
  apply (costs_weaken (length (default [] (includesFiles meta)) + 0)); [lia|].
  apply costs_bind.
  { destruct (includesFiles meta) as [fs|]; simpl; [|apply costs_ret].
    apply (costs_weaken (length fs * 1)); [lia|].
    apply costs_for_each. intros m f. unfold resolve_include.
    apply (costs_weaken (1 + 0)); [lia|].
    apply costs_bind; [apply costs_getPackagistFile|]. intros r.
    destruct (pf_packages r); apply costs_ret. }
  intros ip. apply (costs_weaken (0 + 0)); [lia|].
  apply costs_bind; [|intros _; apply costs_ret].
  intros w. simpl. lia.
Qed.

(** X16.  The requests of one call of [getAllPackages].  When the
    registry has an entry the call makes none.  Otherwise it requests
    the root document, and when that request fails it makes no other.
    When the root document names at most one shard under
    [provider-includes], so that the pool of [all] has a single fetch to
    run and every fetch of the call is finished before the next starts,
    the call makes at most one request for each shard named under
    [provider-includes] and [includes], after the one for the root. *)
Theorem getAllPackages_request_bound (env : Env) (regUrl : string) (w : World) :
  let out := getAllPackages env regUrl w in
  let u := root_url env regUrl in
  (entry_truthy (repoCache w !! repo_key regUrl) = true ->
   requests (snd out) = requests w)
  /\ (entry_truthy (repoCache w !! repo_key regUrl) = false ->
      match root_document env (requests w) u (getHostOpts env u) with
      | inl _ => requests (snd out) = S (requests w)
      | inr r =>
          (length (default [] (pm_provider_includes r)) <= 1)%nat ->
          (S (requests w) <= requests (snd out)
           <= S (requests w)
              + length (default [] (pm_provider_includes r))
              + length (default [] (pm_includes r)))%nat
      end).
Proof.
  intros out u. subst out. split.
  - intros Ht. unfold getAllPackages. run. rewrite Ht.
    pose proof (wait_while_pending_outcome env (poll_budget env) regUrl w)
      as Hw.
    destruct (wait_while_pending env _ regUrl _ w) as [[r|e|] w1]; simpl;
      [by destruct Hw as (_ & _ & ?)|done|done].
  - intros Hf. rewrite (getAllPackages_fresh env regUrl w Hf).
    pose proof (getRegistryMeta_run env regUrl (with_entry regUrl Pending w))
      as Hrun.
    simpl in Hrun. fold u in Hrun.
    destruct (root_document env (requests w) u (getHostOpts env u)) as [e|r].
    + by destruct Hrun as (l & m & ->).
    + rewrite Hrun. intros _.
      match goal with
      | |- context [assembly env regUrl ?meta ?w1] =>
          pose proof (costs_assembly env regUrl meta w1) as Hc;
          pose proof (appends_assembly env regUrl meta w1) as [_ Ha];
          change (requests w1
                  <= requests (snd (assembly env regUrl meta w1)))%nat in Ha;
          set (k := requests (snd (assembly env regUrl meta w1))) in *
      end.
      clearbody k. simpl in Hc, Ha.
      destruct (pm_provider_includes r), (pm_includes r); simpl in *;
        rewrite ?length_map in Hc; lia.
Qed.

(** ** Credentials and the persistent cache, over a whole lookup *)

Lemma cache_free_ret {A} (a : A) : cache_free (ret a).
Proof. intros w. repeat split. exists []. by rewrite app_nil_r. Qed.

Lemma cache_free_throw {A} (e : Exn) : cache_free (@throw A e).
Proof. intros w. repeat split. exists []. by rewrite app_nil_r. Qed.

Lemma cache_free_step {A} (f : World -> Outcome A * World) :
  (forall w, files_ns (snd (f w)) = files_ns w
             /\ org_ns (snd (f w)) = org_ns w
             /\ exists rest, trace (snd (f w)) = (trace w ++ rest)%list
                             /\ forallb (fun e => negb (cache_event e)) rest = true) ->
  cache_free f.
Proof. done. Qed.

Lemma cache_free_seq {A} (w w1 : World) (f : World -> Outcome A * World) :
  (files_ns w1 = files_ns w /\ org_ns w1 = org_ns w
   /\ exists rest, trace w1 = (trace w ++ rest)%list
                   /\ forallb (fun e => negb (cache_event e)) rest = true) ->
  cache_free f ->
  files_ns (snd (f w1)) = files_ns w
  /\ org_ns (snd (f w1)) = org_ns w
  /\ exists rest, trace (snd (f w1)) = (trace w ++ rest)%list
                  /\ forallb (fun e => negb (cache_event e)) rest = true.
Proof.
  intros (Hf & Ho & r1 & Ht & Hq) H.
  destruct (H w1) as (Hf' & Ho' & r2 & Ht' & Hq').
  split; [congruence|]. split; [congruence|].
  exists (r1 ++ r2)%list. split.
  - by rewrite Ht', Ht, app_assoc.
  - by rewrite forallb_app, Hq, Hq'.
Qed.

Lemma cache_free_bind {A B} (m : M A) (f : A -> M B) :
  cache_free m -> (forall a, cache_free (f a)) -> cache_free (bind m f).
Proof.
  intros Hm Hf w. unfold bind. specialize (Hm w).
  destruct (m w) as [[a|e|] w1]; simpl in *; try done.
  by apply cache_free_seq.
Qed.

Lemma cache_free_try_catch {A} (m : M A) (h : Exn -> M A) :
  cache_free m -> (forall e, cache_free (h e)) -> cache_free (try_catch m h).
Proof.
  intros Hm Hh w. unfold try_catch. specialize (Hm w).
  destruct (m w) as [[a|e|] w1]; simpl in *; try done.
  by apply cache_free_seq.
Qed.

Lemma cache_free_emit e : cache_event e = false -> cache_free (emit e).
Proof.
  intros H w. repeat split. exists [e]. split; [done|]. simpl. by rewrite H.
Qed.

Lemma cache_free_request {A} (answer : nat -> string -> HttpOptions -> JsError + A)
  u opts : cache_free (request answer u opts).
Proof.
  intros w. unfold request.
  destruct (answer _ _ _); repeat split; by exists [HttpGet u opts].
Qed.

Lemma cache_free_for_each {A S} (xs : list A) (body : S -> A -> M S) s :
  (forall s x, cache_free (body s x)) -> cache_free (for_each xs body s).
Proof.
  intros Hb. revert s. induction xs as [|x xs IH]; intros s; simpl.
  - apply cache_free_ret.
  - apply cache_free_bind; [apply Hb|apply IH].
Qed.

Lemma cache_free_all {A B} (f : A -> M B) (xs : list A) :
  (forall x, cache_free (f x)) -> cache_free (all f xs).
Proof.
  intros Hf. induction xs as [|x xs IH]; simpl.
  - apply cache_free_ret.
  - apply cache_free_bind; [apply Hf|]. intros b.
    apply cache_free_bind; [apply IH|]. intros bs. apply cache_free_ret.
Qed.

Lemma cache_free_quiet {A} (f : World -> Outcome A * World) :
  (forall w, files_ns (snd (f w)) = files_ns w
             /\ org_ns (snd (f w)) = org_ns w
             /\ trace (snd (f w)) = trace w) ->
  cache_free f.
Proof.
  intros H w. destruct (H w) as (? & ? & Ht). repeat split; try done.
  exists []. by rewrite Ht, app_nil_r.
Qed.

Lemma cache_free_wait env polls regUrl e :
  cache_free (wait_while_pending env polls regUrl e).
Proof.
  revert e. induction polls as [|p IH]; intros e.
  - destruct e as [[|v|]|]; simpl; try apply cache_free_ret.
    by apply cache_free_quiet.
  - destruct e as [[|v|]|]; simpl; try apply cache_free_ret.
    apply cache_free_bind.
    + unfold delay. apply cache_free_bind; [by apply cache_free_emit|].
      intros _. by apply cache_free_quiet.
    + intros _. apply cache_free_bind; [by apply cache_free_quiet|].
      intros again. apply IH.
Qed.

Lemma cache_free_getRegistryMeta env regUrl :
  cache_free (getRegistryMeta env regUrl).
Proof.
  unfold getRegistryMeta. apply cache_free_try_catch.
  - apply cache_free_bind; [apply cache_free_request|].
    intros r. apply cache_free_ret.
  - intros err w.
    destruct (registry_meta_failure_null regUrl err w) as (l & m & ->).
    repeat split. by exists [Log l m].
Qed.

Lemma cache_free_lookup_failure n err : cache_free (lookup_failure n err).
Proof.
  intros w. destruct (lookup_failure_world n err w) as [events H].
  unfold lookup_failure in *.
  repeat match goal with
         | |- context [if ?b then _ else _] => destruct b
         end; run; repeat split;
    try (by exists []; rewrite app_nil_r);
    try (by eexists; split; [rewrite <- app_assoc; reflexivity|]);
    by eexists.
Qed.

Lemma cache_free_getPackagistFile env regUrl file :
  has_credentials (getHostOpts env regUrl) = true ->
  cache_free (getPackagistFile env regUrl file).
Proof.
  intros Hc. unfold getPackagistFile. rewrite Hc. apply cache_free_request.
Qed.

Lemma cache_free_assembly env regUrl meta :
  has_credentials (getHostOpts env regUrl) = true ->
  cache_free (assembly env regUrl meta).
Proof.
  intros Hc. unfold assembly. apply cache_free_bind.
  { destruct (files meta) as [fs|]; [|apply cache_free_ret].
    apply cache_free_bind.
    - apply cache_free_all. intros x. by apply cache_free_getPackagistFile.
    - intros rs. apply cache_free_for_each. intros m r. unfold merge_shard.
      destruct (providers r); [apply cache_free_ret|apply cache_free_throw]. }
  intros pp. apply cache_free_bind.
  { destruct (includesFiles meta) as [fs|]; [|apply cache_free_ret].
    apply cache_free_for_each. intros m f. unfold resolve_include.
    apply cache_free_bind; [by apply cache_free_getPackagistFile|]. intros r.
    destruct (pf_packages r); apply cache_free_ret. }
  intros ip. apply cache_free_bind; [by apply cache_free_quiet|].
  intros _. apply cache_free_ret.
Qed.

Lemma cache_free_getAllPackages env regUrl :
  has_credentials (getHostOpts env regUrl) = true ->
  cache_free (getAllPackages env regUrl).
Proof.
  intros Hc. unfold getAllPackages.
  apply cache_free_bind; [by apply cache_free_quiet|]. intros e.
  destruct (entry_truthy e); [apply cache_free_wait|].
  apply cache_free_bind; [by apply cache_free_quiet|]. intros _.
  apply cache_free_bind; [apply cache_free_getRegistryMeta|].
  intros [meta|].
  - by apply (cache_free_assembly env regUrl meta).
  - apply cache_free_bind; [by apply cache_free_quiet|].
    intros _. apply cache_free_ret.
Qed.

Lemma cache_free_lookup_in env regUrl n all :
  cache_free (lookup_in env regUrl n all).
Proof.
  unfold lookup_in.
  destruct (packages all ≫= _); [apply cache_free_ret|].
  destruct (includes_get (includesPackages all) n); [apply cache_free_ret|].
  destruct (providerPackages all !! n) as [hash|]; [|apply cache_free_ret].
  destruct (str_truthy (Some hash)); [|apply cache_free_ret].
  unfold provider_lookup.
  destruct (providersUrl all); [|apply cache_free_throw].
  apply cache_free_bind; [apply cache_free_request|]. intros body.
  apply cache_free_bind.
  { destruct (pb_packages body); [apply cache_free_ret|apply cache_free_throw]. }
  intros versions. apply cache_free_bind; [by apply cache_free_emit|].
  intros _. apply cache_free_ret.
Qed.

(** X17.  For a registry other than the default one whose host rule
    gives credentials, a whole lookup stays away from the persistent
    cache: the root fetch, every shard fetch of the assembly and the
    provider fetch record no cache read and no cache write, and both
    namespaces are left as they were. *)
Theorem packageLookup_with_credentials_is_cache_free
  (env : Env) (regUrl n : string) :
  regUrl <> default_registry ->
  has_credentials (getHostOpts env regUrl) = true ->
  cache_free (getAllPackages env regUrl)
  /\ cache_free (packageLookup env regUrl n).
Proof.
  intros Hne Hc. split; [by apply cache_free_getAllPackages|].
  unfold packageLookup. apply cache_free_try_catch;
    [|intros e; apply cache_free_lookup_failure].
  unfold lookup_attempt. apply String.eqb_neq in Hne. rewrite Hne.
  apply cache_free_bind; [by apply cache_free_getAllPackages|].
  intros [| |all]; try apply cache_free_ret. apply cache_free_lookup_in.
Qed.

(** The error policy only logs: what it adds to the trace is no event of
    the cache. *)
Lemma lookup_failure_quiet n err w :
  exists events,
    snd (lookup_failure n err w) = logged w events
    /\ forallb (fun e => negb (cache_event e)) events = true.
Proof.
  destruct (lookup_failure_world n err w) as [events Hw].
  destruct (cache_free_lookup_failure n err w) as (_ & _ & rest & Ht & Hq).
  exists events. split; [exact Hw|].
  rewrite Hw in Ht. simpl in Ht. apply app_inv_head in Ht. by subst rest.
Qed.

(** One lookup of a package that a resolved registry lists by provider
    hash only. *)
Lemma packageLookup_by_provider env regUrl n w v template hash :
  regUrl <> default_registry ->
  repoCache w !! repo_key regUrl = Some (Resolved v) ->
  flat_entry v n = None ->
  includes_get (includesPackages v) n = None ->
  providerPackages v !! n = Some hash -> hash <> "" ->
  providersUrl v = Some template ->
  let u := provider_url env regUrl template n hash in
  let out := packageLookup env regUrl n w in
  repoCache (snd out) = repoCache w
  /\ files_ns (snd out) = files_ns w
  /\ org_ns (snd out) = org_ns w
  /\ requests (snd out) = S (requests w)
  /\ exists rest,
       trace (snd out)
       = (trace w ++ HttpGet u (getHostOpts env regUrl) :: rest)%list
       /\ forallb (fun e => negb (cache_event e)) rest = true.
Proof.
  intros Hne Hv Hflat Hincl Hprov Hh Ht u out.
  set (fetched := {| repoCache := repoCache w; files_ns := files_ns w;
                     org_ns := org_ns w; requests := S (requests w);
                     trace := trace w ++ [HttpGet u (getHostOpts env regUrl)] |}).
  assert (Hrun : exists events,
             snd out = logged fetched events
             /\ forallb (fun e => negb (cache_event e)) events = true).
  { subst out.
    rewrite (packageLookup_in_view env regUrl n w v w Hne
               (getAllPackages_resolved_is_permanent env regUrl w v Hv)).
    unfold try_catch, lookup_in. unfold flat_entry in Hflat.
    change (packages v ≫= (fun o => versions_of o n))
      with (match packages v with
            | Some o => versions_of o n
            | None => None
            end).
    rewrite Hflat, Hincl, Hprov. apply String.eqb_neq in Hh. simpl.
    rewrite Hh. simpl. unfold provider_lookup. rewrite Ht.
    fold (provider_url env regUrl template n hash). fold u.
    subst fetched. generalize (getHostOpts env regUrl). intros opts.
    unfold bind at 1. unfold request at 1. cbv beta iota zeta.
    destruct (package_document env (requests w) u opts) as [e|body].
    - apply lookup_failure_quiet.
    - destruct (pb_packages body) as [o|].
      + run. by exists [Log "trace" "dep"].
      + run. by exists [Log "warn" "packagist registry failure: Unknown error"]. }
  destruct Hrun as (events & -> & Hq). simpl.
  do 4 (split; [done|]). exists events. split; [|exact Hq].
  by rewrite <- app_assoc.
Qed.

(** X18.  Once a registry other than the default one is resolved, a
    lookup in it never uses the persistent cache, with or without
    credentials: it records no cache read and no cache write and leaves
    both namespaces as they are.  In particular the per-package document
    of the provider layout is not kept anywhere: for a package that the
    view lists by provider hash only, every lookup requests that
    document, so that two lookups in a row make two requests for the same
    URL, and [global.repoCache] is as it was. *)
Theorem packageLookup_in_resolved_registry_is_cache_free
  (env : Env) (regUrl n : string) (w : World) (v : AllPackages) :
  regUrl <> default_registry ->
  repoCache w !! repo_key regUrl = Some (Resolved v) ->
  let out := packageLookup env regUrl n w in
  let again := packageLookup env regUrl n (snd out) in
  (files_ns (snd out) = files_ns w
   /\ org_ns (snd out) = org_ns w
   /\ exists rest,
        trace (snd out) = (trace w ++ rest)%list
        /\ forallb (fun e => negb (cache_event e)) rest = true)
  /\ (forall template hash,
        flat_entry v n = None ->
        includes_get (includesPackages v) n = None ->
        providerPackages v !! n = Some hash -> hash <> "" ->
        providersUrl v = Some template ->
        let u := provider_url env regUrl template n hash in
        let opts := getHostOpts env regUrl in
        (exists rest,
            trace (snd out) = (trace w ++ HttpGet u opts :: rest)%list
            /\ forallb (fun e => negb (cache_event e)) rest = true)
        /\ requests (snd out) = S (requests w)
        /\ repoCache (snd out) = repoCache w
        /\ (exists rest,
              trace (snd again)
              = (trace (snd out) ++ HttpGet u opts :: rest)%list
              /\ forallb (fun e => negb (cache_event e)) rest = true)
        /\ requests (snd again) = S (S (requests w))
        /\ files_ns (snd again) = files_ns w
        /\ org_ns (snd again) = org_ns w).
Proof.
  intros Hne Hv out again. split.
  - subst out.
    rewrite (packageLookup_in_view env regUrl n w v w Hne
               (getAllPackages_resolved_is_permanent env regUrl w v Hv)).
    apply (cache_free_try_catch (lookup_in env regUrl n v) (lookup_failure n)).
    + apply cache_free_lookup_in.
    + intros e. apply cache_free_lookup_failure.
  - intros template hash Hflat Hincl Hprov Hh Ht u opts.
    destruct (packageLookup_by_provider env regUrl n w v template hash
                Hne Hv Hflat Hincl Hprov Hh Ht)
      as (Hrepo & Hfiles & Horg & Hreq & Htrace).
    fold out in Hrepo, Hfiles, Horg, Hreq, Htrace.
    assert (Hv' : repoCache (snd out) !! repo_key regUrl = Some (Resolved v))
      by (by rewrite Hrepo).
    destruct (packageLookup_by_provider env regUrl n (snd out) v template hash
                Hne Hv' Hflat Hincl Hprov Hh Ht)
      as (_ & Hfiles2 & Horg2 & Hreq2 & Htrace2).
    fold again in Hfiles2, Horg2, Hreq2, Htrace2.
    split; [exact Htrace|]. split; [exact Hreq|]. split; [exact Hrepo|].
    split; [exact Htrace2|]. split; [by rewrite Hreq2, Hreq|].
    split; congruence.
Qed.

(** X22.  When the request of the per-package document of the default
    registry fails with 404 or [ENOTFOUND], the lookup answers [null]
    and writes nothing to the cache: the next lookup of the name
    requests the document again. *)
Theorem packageLookup_default_not_found_writes_nothing
  (env : Env) (n : string) (w : World) (e : JsError) :
  (forall d ttl, org_ns w !! n <> Some (Some d, ttl)) ->
  package_document env (requests w) (org_url env n) no_opts = inl e ->
  not_found e ->
  let out := packageLookup env default_registry n w in
  fst out = Ok Null
  /\ org_ns (snd out) = org_ns w
  /\ requests (snd out) = S (requests w)
  /\ requests (snd (packageLookup env default_registry n (snd out)))
     = S (S (requests w)).
Proof.
  intros Hmiss Hdoc Hnf out.
  assert (Hrun : forall w',
             (forall d ttl, org_ns w' !! n <> Some (Some d, ttl)) ->
             let out := packageLookup env default_registry n w' in
             requests (snd out) = S (requests w')
             /\ (package_document env (requests w') (org_url env n) no_opts
                 = inl e ->
                 fst out = Ok Null /\ org_ns (snd out) = org_ns w')).
  { intros w' Hm. rewrite packageLookup_default.
    rewrite (packagistOrgLookup_miss env n w' Hm). cbv zeta.
    destruct (package_document env (requests w') _ _) as [e'|b];
      cbv beta iota zeta.
    - match goal with
      | |- context [lookup_failure n ?x ?w1] =>
          destruct (lookup_failure_world n x w1) as [events Hw];
          pose proof (lookup_failure_cases n x w1) as (H1 & _ & _)
      end.
      split; [by rewrite Hw|]. intros [= ->].
      rewrite (H1 Hnf). done.
    - destruct (pb_packages b) as [o|].
      + destruct (versions_of o n); simpl; by split.
      + match goal with
        | |- context [lookup_failure n ?x ?w1] =>
            destruct (lookup_failure_world n x w1) as [events ->]
        end.
        by split. }
  destruct (Hrun w Hmiss) as [Hreq Hnull]. destruct (Hnull Hdoc) as [Hout Horg].
  subst out. repeat split; try done.
  destruct (Hrun (snd (packageLookup env default_registry n w))) as [Hreq2 _].
  - intros d ttl. rewrite Horg. apply Hmiss.
  - by rewrite Hreq2, Hreq.
Qed.

(** ** Names that every object inherits *)

(** X23.  A name that every object inherits, such as [constructor], is
    never absent from the default registry: when the per-package
    document has no entry for it, [body.packages[name]] is the inherited
    member, and the lookup answers a release result with that name and
    no release, writes it to the cache for 10 minutes, and serves it
    from there to the next lookup. *)
Theorem packagistOrgLookup_inherited_name
  (env : Env) (n : string) (w : World) (body : PackageBody)
  (o : Dict (option RawVersions)) :
  (forall d ttl, org_ns w !! n <> Some (Some d, ttl)) ->
  package_document env (requests w) (org_url env n) no_opts = inr body ->
  pb_packages body = Some o ->
  get o n = None ->
  inherits n = true ->
  let dep := {| name := Some n; releases := Some [];
                homepage := None; sourceUrl := None |} in
  let out := packagistOrgLookup env n w in
  fst out = Ok (Val dep)
  /\ org_ns (snd out) !! n = Some (Some dep, 10)
  /\ trace (snd out)
     = (trace w ++ [CacheGet org_namespace n;
                    HttpGet (org_url env n) no_opts;
                    Log "trace" "dep";
                    CacheSet org_namespace n 10])%list
  /\ packagistOrgLookup env n (snd out)
     = (Ok (Val dep), logged (snd out) [CacheGet org_namespace n]).
Proof.
  intros Hmiss Hdoc Hpk Hget Hin dep out.
  assert (Hout : out
                 = (Ok (Val dep),
                    {| repoCache := repoCache w; files_ns := files_ns w;
                       org_ns := <[n := (Some dep, 10)]> (org_ns w);
                       requests := S (requests w);
                       trace := trace w ++ [CacheGet org_namespace n;
                                            HttpGet (org_url env n) no_opts]
                                  ++ [Log "trace" "dep";
                                      CacheSet org_namespace n 10] |})).
  { subst out. rewrite (packagistOrgLookup_miss env n w Hmiss), Hdoc, Hpk.
    unfold versions_of. by rewrite Hget, Hin. }
  rewrite Hout. simpl. split; [done|]. split; [apply lookup_insert_eq|].
  split; [done|].
  apply (packagistOrgLookup_hit env n _ dep 10). simpl.
  apply lookup_insert_eq.
Qed.

(** X24.  In a resolved registry other than the default one, a name
    that every object inherits is always found: the lookup answers a
    value, never [null], and makes no request, whatever the registry
    lists.  When the registry has no flat packages and no includes
    shard, the value is the inherited member of [includesPackages]
    itself, which is not a release result. *)
Theorem packageLookup_inherited_name_is_found
  (env : Env) (regUrl n : string) (w : World) (all : AllPackages) (w1 : World) :
  regUrl <> default_registry ->
  getAllPackages env regUrl w = (Ok (Val all), w1) ->
  inherits n = true ->
  exists found,
    packageLookup env regUrl n w = (Ok (Val found), w1)
    /\ (flat_entry all n = None ->
        includes_get (includesPackages all) n = Some found)
    /\ (forall m,
          packages all = None -> includesPackages all = ∅ ->
          member_of n = Some m -> found = Member m).
Proof.
  intros Hne Hget Hin.
  rewrite (packageLookup_in_view env regUrl n w all w1 Hne Hget).
  unfold try_catch, lookup_in, flat_entry.
  change (packages all ≫= (fun o => versions_of o n))
    with (match packages all with
          | Some o => versions_of o n
          | None => None
          end).
  destruct (includes_get_inherited (includesPackages all) n Hin) as [f Hf].
  destruct (match packages all with
            | Some o => versions_of o n
            | None => None
            end) as [vs|] eqn:Hflat.
  - eexists. split; [reflexivity|]. split; [done|].
    intros m Hp. by rewrite Hp in Hflat.
  - rewrite Hf. exists f. split; [done|]. split; [done|].
    intros m _ Hi Hm. rewrite Hi in Hf. unfold includes_get in Hf.
    simpl in Hf. rewrite lookup_empty in Hf. simpl in Hf.
    rewrite Hm in Hf. simpl in Hf. congruence.
Qed.

(** ** Gitea: the combined commit status *)

Section GiteaStatuses.

Import Gitea.

Variable time_value : string -> option Z.

Lemma indexOf_from_range i xs x :
  indexOf_from i xs x = -1
  \/ (i <= indexOf_from i xs x < i + Z.of_nat (length xs)
      /\ xs !! Z.to_nat (indexOf_from i xs x - i) = Some x).
Proof.
  revert i. induction xs as [|y xs IH]; intros i; simpl; [by left|].
  destruct (String.eqb_spec y x) as [->|Hne].
  - right. split; [lia|]. by replace (i - i) with 0 by lia.
  - destruct (IH (i + 1)) as [->|[Hr Hl]]; [by left|]. right.
    split; [lia|].
    replace (Z.to_nat (indexOf_from (i + 1) xs x - i))
      with (S (Z.to_nat (indexOf_from (i + 1) xs x - (i + 1)))) by lia.
    done.
Qed.

Lemma worst_state_range (l : list CommitStatus) (start : Z) :
  0 <= start <= 5 ->
  0 <= fold_left (fun worst cs =>
                    Z.max worst (indexOf commitStatusStates (status cs)))
         l start <= 5.
Proof.
  revert start. induction l as [|cs l IH]; intros start H; [done|].
  simpl. apply IH.
  destruct (indexOf_from_range 0 commitStatusStates (status cs))
    as [E|[Hr _]]; unfold indexOf; simpl in *; lia.
Qed.

Lemma worst_state_max (l : list CommitStatus) (start : Z) :
  let worst := fold_left (fun worst cs =>
                            Z.max worst (indexOf commitStatusStates (status cs)))
                 l start in
  start <= worst
  /\ (forall cs, In cs l -> indexOf commitStatusStates (status cs) <= worst)
  /\ (worst = start
      \/ exists cs, In cs l /\ indexOf commitStatusStates (status cs) = worst).
Proof.
  revert start. induction l as [|cs l IH]; intros start; simpl.
  - split; [lia|]. split; [by intros cs []|by left].
  - destruct (IH (Z.max start (indexOf commitStatusStates (status cs))))
      as (H1 & H2 & H3).
    split; [lia|]. split.
    + intros cs' [<-|Hin]; [lia|by apply H2].
    + destruct H3 as [H3|(cs' & Hin & H3)].
      * destruct (Z.max_spec start (indexOf commitStatusStates (status cs)))
          as [[_ E]|[_ E]]; rewrite E in H3 |- *.
        -- right. exists cs. split; [by left|by symmetry].
        -- by left.
      * right. exists cs'. split; [by right|done].
Qed.

Lemma at_index_state (k : Z) :
  0 <= k <= 5 ->
  exists s, at_index commitStatusStates k = Some s
            /\ indexOf commitStatusStates s = k.
Proof.
  intros H.
  assert (k = 0 \/ k = 1 \/ k = 2 \/ k = 3 \/ k = 4 \/ k = 5) as Hk by lia.
  destruct Hk as [->|[->|[->|[->|[->| ->]]]]]; by eexists.
Qed.

(** X19.  The worst status of a combined commit status is always one of
    the six states, never [undefined]: it is the state of highest rank
    among the statuses that [filterStatus] keeps, a status with a state
    outside the six counts as none, and without any status it is
    ['unknown'].  The statuses themselves are returned unfiltered. *)
Theorem combined_worst_status (body : list CommitStatus) :
  exists w,
    worstStatus (combined time_value body) = Some w
    /\ In w commitStatusStates
    /\ (forall cs, In cs (filterStatus time_value body) ->
                   indexOf commitStatusStates (status cs)
                   <= indexOf commitStatusStates w)
    /\ (w = "unknown"
        \/ exists cs, In cs (filterStatus time_value body) /\ status cs = w)
    /\ statuses (combined time_value body) = body.
Proof.
  unfold combined. simpl.
  set (l := filterStatus time_value body).
  pose proof (worst_state_range l 0 ltac:(lia)) as Hr.
  pose proof (worst_state_max l 0) as (_ & Hmax & Hatt).
  set (k := fold_left _ l 0) in *.
  destruct (at_index_state k Hr) as (w & Hw & Hk).
  exists w. split; [exact Hw|]. split.
  { unfold at_index in Hw. destruct (k <? 0); [done|].
    change (In w commitStatusStates). apply list_elem_of_In.
    by apply list_elem_of_lookup_2 in Hw. }
  split; [by rewrite Hk|]. split; [|done].
  destruct Hatt as [E|(cs & Hin & E)].
  - left. rewrite E in Hw. by injection Hw as <-.
  - right. exists cs. split; [done|].
    destruct (indexOf_from_range 0 commitStatusStates (status cs))
      as [E'|[_ Hl]]; unfold indexOf in *; [lia|].
    rewrite E, Z.sub_0_r in Hl. unfold at_index in Hw.
    destruct (k <? 0); [done|]. congruence.
Qed.

Lemma get_In {V} (o : Dict V) k v : get o k = Some v -> In (k, v) o.
Proof.
  induction o as [|[k' v'] o IH]; simpl; [done|].
  destruct (String.eqb_spec k' k) as [->|Hne].
  - intros [= ->]. by left.
  - intros H. right. by apply IH.
Qed.

Lemma In_get {V} (o : Dict V) k v :
  NoDup (map fst o) -> In (k, v) o -> get o k = Some v.
Proof.
  induction o as [|[k' v'] o IH]; simpl; [by intros _ []|].
  intros Hnd [[= -> ->]|Hin].
  - by rewrite String.eqb_refl.
  - apply NoDup_cons in Hnd as [Hk Hnd].
    destruct (String.eqb_spec k' k) as [->|Hne].
    + exfalso. apply Hk. apply list_elem_of_In.
      by apply (in_map fst) in Hin.
    + by apply IH.
Qed.

Lemma get_set_eq {V} (o : Dict V) k v : get (set o k v) k = Some v.
Proof.
  induction o as [|[k' v'] o IH]; simpl; [by rewrite String.eqb_refl|].
  destruct (String.eqb_spec k' k) as [->|Hne]; simpl.
  - by rewrite String.eqb_refl.
  - apply String.eqb_neq in Hne. by rewrite Hne.
Qed.

Lemma get_set_ne {V} (o : Dict V) k k' v :
  k <> k' -> get (set o k v) k' = get o k'.
Proof.
  intros Hne. induction o as [|[k0 v0] o IH]; simpl.
  - apply String.eqb_neq in Hne. by rewrite Hne.
  - destruct (String.eqb_spec k0 k) as [->|Hne0]; simpl.
    + apply String.eqb_neq in Hne. by rewrite Hne.
    + by rewrite IH.
Qed.

Lemma set_keys {V} (o : Dict V) k v x :
  In x (map fst (set o k v)) -> x = k \/ In x (map fst o).
Proof.
  induction o as [|[k0 v0] o IH]; simpl.
  - intros [<-|[]]. by left.
  - destruct (String.eqb_spec k0 k) as [->|Hne]; simpl.
    + intros [<-|Hin]; [by left|]. right. by right.
    + intros [<-|Hin]; [right; by left|].
      destruct (IH Hin) as [->|?]; [by left|]. right. by right.
Qed.

Lemma set_NoDup {V} (o : Dict V) k v :
  NoDup (map fst o) -> NoDup (map fst (set o k v)).
Proof.
  induction o as [|[k0 v0] o IH]; simpl.
  - intros _. apply NoDup_singleton.
  - intros Hnd. apply NoDup_cons in Hnd as [Hk Hnd].
    destruct (String.eqb_spec k0 k) as [->|Hne]; simpl.
    + by apply NoDup_cons.
    + apply NoDup_cons. split; [|by apply IH].
      intros Hin. apply list_elem_of_In, set_keys in Hin as [E|Hin]; [done|].
      apply Hk. by apply list_elem_of_In.
Qed.

Lemma insert_by_index_perm {V} (e : N * V) (l : list (N * V)) :
  insert_by_index e l ≡ₚ e :: l.
Proof.
  induction l as [|e' l IH]; simpl; [done|].
  destruct (fst e <? fst e')%N; [done|].
  rewrite IH. apply Permutation_swap.
Qed.

Lemma Object_values_perm {V} (o : Dict V) : Object_values o ≡ₚ map snd o.
Proof.
  unfold Object_values. induction o as [|[k v] o IH]; simpl; [done|].
  destruct (Object_values_split o) as [indexed named].
  destruct (array_index k) as [n|]; simpl.
  - rewrite insert_by_index_perm. simpl. by rewrite IH.
  - rewrite <- IH. symmetry. apply Permutation_middle.
Qed.

(** What the loop of [filterStatus] keeps true of [ret], after the
    statuses [seen]. *)
Definition latest_of (ret : Dict CommitStatus) (seen : list CommitStatus)
  : Prop :=
  NoDup (map fst ret)
  /\ (forall k v, get ret k = Some v ->
                  context v = k /\ inherited k = false /\ In v seen)
  /\ (forall i, In i seen -> inherited (context i) = false ->
                exists r, get ret (context i) = Some r
                          /\ forall a b,
                               time_value (created_at i) = Some a ->
                               time_value (created_at r) = Some b ->
                               a <= b).

Lemma keep_latest_latest_of ret seen i :
  latest_of ret seen ->
  latest_of (keep_latest time_value ret i) (seen ++ [i]).
Proof.
  intros (Hnd & Hown & Hnew). unfold keep_latest.
  assert (Hseen : forall v, In v seen -> In v (seen ++ [i])).
  { intros v Hv. apply in_or_app. by left. }
  assert (Hi : In i (seen ++ [i])).
  { apply in_or_app. right. by left. }
  destruct (get ret (context i)) as [kept|] eqn:Hk.
  - destruct (Hown _ _ Hk) as (Hc & Hinh & Hin).
    destruct (date_lt (time_value (created_at kept))
                (time_value (created_at i))) eqn:Hlt.
    + split; [by apply set_NoDup|]. split.
      * intros k v. destruct (decide (context i = k)) as [<-|Hne].
        -- rewrite get_set_eq. intros [= <-]. done.
        -- rewrite get_set_ne by done. intros Hg.
           destruct (Hown _ _ Hg) as (? & ? & ?). auto.
      * intros j Hj Hjinh.
        destruct (decide (context i = context j)) as [E|Hne].
        -- rewrite <- E, get_set_eq. exists i. split; [done|].
           intros a b Ha Hb. apply in_app_or in Hj as [Hj|[<-|[]]].
           ++ destruct (Hnew j Hj Hjinh) as (r & Hr & Hle).
              rewrite <- E, Hk in Hr. injection Hr as <-.
              unfold date_lt in Hlt. rewrite Hb in Hlt.
              destruct (time_value (created_at kept)) as [tk|]; [|done].
              apply Z.ltb_lt in Hlt. specialize (Hle a tk Ha eq_refl). lia.
           ++ rewrite Ha in Hb. injection Hb as <-. lia.
        -- rewrite get_set_ne by done.
           apply in_app_or in Hj as [Hj|[<-|[]]]; [|done].
           by apply Hnew.
    + split; [done|]. split.
      * intros k v Hg. destruct (Hown _ _ Hg) as (? & ? & ?). auto.
      * intros j Hj Hjinh. apply in_app_or in Hj as [Hj|[<-|[]]].
        -- by apply Hnew.
        -- exists kept. split; [done|]. intros a b Ha Hb.
           unfold date_lt in Hlt. rewrite Ha, Hb in Hlt.
           apply Z.ltb_ge in Hlt. lia.
  - destruct (inherited (context i)) eqn:Hinh.
    + split; [done|]. split.
      * intros k v Hg. destruct (Hown _ _ Hg) as (? & ? & ?). auto.
      * intros j Hj Hjinh. apply in_app_or in Hj as [Hj|[<-|[]]].
        -- by apply Hnew.
        -- congruence.
    + split; [by apply set_NoDup|]. split.
      * intros k v. destruct (decide (context i = k)) as [<-|Hne].
        -- rewrite get_set_eq. intros [= <-]. done.
        -- rewrite get_set_ne by done. intros Hg.
           destruct (Hown _ _ Hg) as (? & ? & ?). auto.
      * intros j Hj Hjinh.
        destruct (decide (context i = context j)) as [E|Hne].
        -- rewrite <- E, get_set_eq. exists i. split; [done|].
           intros a b Ha Hb. apply in_app_or in Hj as [Hj|[<-|[]]].
           ++ destruct (Hnew j Hj Hjinh) as (r & Hr & _).
              rewrite <- E, Hk in Hr. done.
           ++ rewrite Ha in Hb. injection Hb as <-. lia.
        -- rewrite get_set_ne by done.
           apply in_app_or in Hj as [Hj|[<-|[]]]; [|done].
           by apply Hnew.
Qed.

Lemma fold_keep_latest ret seen data :
  latest_of ret seen ->
  latest_of (fold_left (keep_latest time_value) data ret) (seen ++ data).
Proof.
  revert ret seen. induction data as [|i data IH]; intros ret seen H; simpl.
  - by rewrite app_nil_r.
  - replace (seen ++ i :: data)%list with ((seen ++ [i]) ++ data)%list
      by (by rewrite <- app_assoc).
    apply IH. by apply keep_latest_latest_of.
Qed.

(** X20.  [filterStatus] keeps one status per context: no two of the
    statuses it returns have the same context, each is one of the given
    statuses, and for every given status (whose context is not a name
    inherited from [Object.prototype]) it returns a status of the same
    context that is not older, wherever both dates are valid.  A status
    whose context is such an inherited name is dropped. *)
Theorem filterStatus_keeps_latest_per_context (data : list CommitStatus) :
  NoDup (map context (filterStatus time_value data))
  /\ (forall r, In r (filterStatus time_value data) ->
                In r data /\ inherited (context r) = false)
  /\ (forall i, In i data -> inherited (context i) = false ->
                exists r, In r (filterStatus time_value data)
                          /\ context r = context i
                          /\ forall a b,
                               time_value (created_at i) = Some a ->
                               time_value (created_at r) = Some b ->
                               a <= b).
Proof.
  assert (H0 : latest_of [] []).
  { split; [apply NoDup_nil_2|]. split; [done|]. by intros i []. }
  pose proof (fold_keep_latest [] [] data H0) as (Hnd & Hown & Hnew).
  simpl in Hown, Hnew. unfold filterStatus.
  set (ret := fold_left (keep_latest time_value) data []) in *.
  assert (Hctx : map context (map snd ret) = map fst ret).
  { rewrite map_map. apply map_ext_in. intros [k v] Hin. simpl.
    by destruct (Hown k v (In_get ret k v Hnd Hin)). }
  assert (Hmem : forall r, In r (Object_values ret) <-> exists k, get ret k = Some r).
  { intros r. rewrite <- list_elem_of_In, (Object_values_perm ret), list_elem_of_In.
    rewrite in_map_iff. split.
    - intros ([k v] & <- & Hin). exists k. by apply In_get.
    - intros (k & Hg). exists (k, r). split; [done|]. by apply get_In. }
  split; [|split].
  - rewrite (Object_values_perm ret), Hctx. done.
  - intros r Hr. apply Hmem in Hr as (k & Hg).
    destruct (Hown k r Hg) as (<- & ? & ?). done.
  - intros i Hi Hinh. destruct (Hnew i Hi Hinh) as (r & Hg & Hle).
    exists r. split; [apply Hmem; by eexists|].
    split; [by destruct (Hown _ _ Hg)|done].
Qed.

(** X21.  The two status mappings agree: a branch status written as a
    Gitea state is read back as the same branch status, and each of the
    six states, so also the worst status of any combined status, has a
    branch status. *)
Theorem status_mapping_round_trip (body : list CommitStatus) :
  (forall b, get giteaToRenovateStatusMapping (renovateToGiteaStatusMapping b)
             = Some b)
  /\ (forall s, In s commitStatusStates ->
                is_Some (get giteaToRenovateStatusMapping s))
  /\ exists w b,
       worstStatus (combined time_value body) = Some w
       /\ get giteaToRenovateStatusMapping w = Some b.
Proof.
  assert (Hall : forall s, In s commitStatusStates ->
                           is_Some (get giteaToRenovateStatusMapping s)).
  { intros s Hs. simpl in Hs.
    destruct Hs as [<-|[<-|[<-|[<-|[<-|[<-|[]]]]]]]; by eexists. }
  split; [by intros []|]. split; [exact Hall|].
  unfold combined. simpl.
  set (l := filterStatus time_value body).
  pose proof (worst_state_range l 0 ltac:(lia)) as Hr.
  set (k := fold_left _ l 0) in *.
  destruct (at_index_state k Hr) as (w & Hw & Hk).
  assert (Hin : In w commitStatusStates).
  { unfold at_index in Hw. destruct (k <? 0); [done|].
    apply list_elem_of_In. by apply list_elem_of_lookup_2 in Hw. }
  destruct (Hall w Hin) as [b Hb]. by exists w, b.
Qed.

End GiteaStatuses.

(** ** Instances of the further properties *)

Lemma extractDepReleases_homepage_witness :
  homepage (extractDepReleases (Some Sample.history))
  = Some "https://new.example".
Proof.
  apply (proj2 (extractDepReleases_homepage Sample.history)
           [("1.0.0", Sample.first_release)] "v1.1.0" Sample.second_release
           [("dev-master", Sample.third_release)]);
    [reflexivity|reflexivity|].
  intros kv [<-|[]]. reflexivity.
Defined.

Lemma extractDepReleases_sourceUrl_witness :
  sourceUrl (extractDepReleases (Some Sample.history))
  = Some "https://git.example/pkg".
Proof.
  apply (proj2 (extractDepReleases_sourceUrl Sample.history)
           [] "1.0.0" Sample.first_release
           [("v1.1.0", Sample.second_release);
            ("dev-master", Sample.third_release)]);
    [reflexivity|reflexivity|].
  intros kv [<-|[<-|[]]]; reflexivity.
Defined.

Lemma includes_file_name_round_trip_witness :
  shard_url "https://b.example"
    (includes_file ("include/all$0123.json", {| sha256 := "0123" |}))
  = "https://b.example/include/all$0123.json".
Proof.
  apply (proj1 (includes_file_name_round_trip "https://b.example"
                  "include/all$0123.json" "0123" eq_refl)
           "include/all$" ".json"); reflexivity.
Defined.

Lemma merge_providers_last_wins_witness :
  merge_providers [("c/d", {| sha256 := "x" |});
                   ("__proto__", {| sha256 := "y" |});
                   ("a/b", {| sha256 := "new" |})] {["a/b" := "old"]} !! "a/b"
  = Some "new".
Proof.
  apply (proj1 (proj2 (merge_providers_last_wins _ {["a/b" := "old"]} "a/b"))
           [("c/d", {| sha256 := "x" |}); ("__proto__", {| sha256 := "y" |})]
           {| sha256 := "new" |} []); [discriminate|reflexivity|].
  intros e [].
Defined.

Lemma merge_includes_last_wins_witness :
  exists dep,
    inc_own (merge_includes [("a/b", Some Sample.history); ("c/d", None)] ∅)
      !! "c/d" = Some dep
    /\ includes_get
         (merge_includes [("a/b", Some Sample.history); ("c/d", None)] ∅) "c/d"
       = Some (Dep dep)
    /\ name dep = Some "c/d"
    /\ dep = set_name "c/d" (extractDepReleases None)
    /\ (@None RawVersions = None -> releases dep = Some []).
Proof.
  apply (proj1 (proj2 (merge_includes_last_wins _ ∅ "c/d"))
           [("a/b", Some Sample.history)] None []);
    [discriminate|reflexivity|].
  intros e [].
Defined.

Lemma getPackagistFile_second_call_is_cached_witness :
  let first := getPackagistFile Demo.env "https://b.example"
                 Demo.shard_file Demo.start in
  getPackagistFile Demo.env "https://b.example" Demo.shard_file (snd first)
  = (Ok {| providers := Some [("vendor/other", {| sha256 := "def" |})];
           pf_packages := None |},
     logged (snd first)
       [CacheGet files_namespace
          "https://b.examplep/provider-latest$%hash%.json"]).
Proof.
  intros first.
  apply (getPackagistFile_second_call_is_cached Demo.env "https://b.example"
           Demo.shard_file Demo.start (snd first)); [reflexivity|].
  vm_compute. reflexivity.
Defined.

Lemma packagistOrgLookup_second_call_is_cached_witness :
  let first := packagistOrgLookup Demo.env "vendor/pkg" Demo.start in
  packagistOrgLookup Demo.env "vendor/pkg" (snd first)
  = (Ok (Val (set_name "vendor/pkg" (extractDepReleases (Some Demo.versions)))),
     logged (snd first) [CacheGet org_namespace "vendor/pkg"]).
Proof.
  intros first.
  apply (packagistOrgLookup_second_call_is_cached Demo.env "vendor/pkg"
           Demo.start (snd first)).
  vm_compute. reflexivity.
Defined.

Lemma getAllPackages_resolution_is_memoized_witness :
  getAllPackages Demo.env "https://b.example" Demo.assembled
  = (Ok (Val Demo.view), Demo.assembled).
Proof.
  apply (getAllPackages_resolution_is_memoized Demo.env "https://b.example"
           Demo.start Demo.assembled Demo.view).
  vm_compute. reflexivity.
Defined.

Lemma getAllPackages_throw_leaves_pending_witness :
  let out := getAllPackages Sample.env "https://shards.example" Demo.start in
  fst out = Throw (Raised Sample.server_error)
  /\ repoCache (snd out) !! repo_key "https://shards.example" = Some Pending
  /\ fst (getAllPackages Sample.env "https://shards.example" (snd out)) = Hang.
Proof.
  intros out.
  assert (H : getAllPackages Sample.env "https://shards.example" Demo.start
              = (Throw (Raised Sample.server_error), snd out))
    by (vm_compute; reflexivity).
  destruct (getAllPackages_throw_leaves_pending Sample.env
              "https://shards.example" Demo.start (snd out)
              (Raised Sample.server_error) H) as (Hp & _ & Hh).
  split; [vm_compute; reflexivity|]. split; [exact Hp|].
  apply Hh. intros c Hc. exact Hc.
Defined.

Lemma packageLookup_unreachable_registry_is_null_witness :
  let out := packageLookup Demo.env "https://a.example" "vendor/pkg"
               Demo.start in
  fst out = Ok Null
  /\ repoCache (snd out) !! repo_key "https://a.example" = Some Failed
  /\ requests (snd out) = 1%nat.
Proof.
  apply (packageLookup_unreachable_registry_is_null Demo.env
           "https://a.example" "vendor/pkg" Demo.start Demo.not_found);
    [discriminate|reflexivity|reflexivity].
Defined.

Lemma packageLookup_without_providers_url_witness :
  packageLookup Sample.env "https://nourl.example" "vendor/pkg" Demo.start
  = (Ok Null,
     logged Sample.nourl_assembled
       [Log "warn" "packagist registry failure: Unknown error"]).
Proof.
  apply (packageLookup_without_providers_url Sample.env
           "https://nourl.example" "vendor/pkg" Demo.start Sample.nourl_view
           Sample.nourl_assembled "abc");
    [discriminate|vm_compute; reflexivity|reflexivity|reflexivity
    |reflexivity|discriminate|reflexivity].
Defined.

Lemma getReleases_escalation_stops_the_loop_witness :
  fst (getReleases Demo.env "vendor/down"
         (Some ["https://a.example"; "https://packagist.org";
                "https://b.example"]) Demo.start)
  = Throw (DatasourceError (Raised (Demo.timed_out "packagist.org"))).
Proof.
  pose proof (getReleases_escalation_stops_the_loop Demo.env "vendor/down"
                ["https://a.example"] "https://packagist.org"
                ["https://b.example"]
                (DatasourceError (Raised (Demo.timed_out "packagist.org")))
                Demo.start) as H.
  cbn [app] in H. rewrite H.
  - reflexivity.
  - intros [|i] q Hq; simpl in Hq; [|done].
    injection Hq as <-. vm_compute. reflexivity.
  - vm_compute. reflexivity.
Defined.

Lemma root_url_ignores_trailing_slash_witness :
  root_url Demo.env "https://b.example/" = "https://b.example/packages.json"
  /\ repo_key "https://b.example/" <> repo_key "https://b.example".
Proof.
  exact (root_url_ignores_trailing_slash Demo.env "https://b.example" eq_refl).
Defined.

Lemma getAllPackages_request_bound_witness :
  (1 <= requests (snd (getAllPackages Sample.mirror_env
                         "https://mirror.example" Demo.start))
   <= 3)%nat.
Proof.
  exact (proj2 (getAllPackages_request_bound Sample.mirror_env
                  "https://mirror.example" Demo.start) eq_refl (le_n 1)).
Defined.

Lemma packageLookup_with_credentials_is_cache_free_witness :
  cache_free (getAllPackages Demo.env "https://private.example")
  /\ cache_free (packageLookup Demo.env "https://private.example" "vendor/pkg").
Proof.
  apply (packageLookup_with_credentials_is_cache_free Demo.env
           "https://private.example" "vendor/pkg");
    [discriminate|reflexivity].
Defined.

Lemma packageLookup_in_resolved_registry_is_cache_free_witness :
  let w := snd (getAllPackages Sample.mirror_env "https://mirror.example"
                  Demo.start) in
  let out := packageLookup Sample.mirror_env "https://mirror.example"
               "vendor/lib" w in
  let again := packageLookup Sample.mirror_env "https://mirror.example"
                 "vendor/lib" (snd out) in
  (exists rest,
      trace (snd out)
      = (trace w
         ++ HttpGet "https://mirror.example/p/vendor/lib$def.json" no_opts
            :: rest)%list
      /\ forallb (fun e => negb (cache_event e)) rest = true)
  /\ requests w = 3%nat
  /\ requests (snd out) = 4%nat
  /\ requests (snd again) = 5%nat.
Proof.
  intros w out again.
  assert (Hv : repoCache w !! repo_key "https://mirror.example"
               = Some (Resolved Sample.mirror_view))
    by (vm_compute; reflexivity).
  assert (Hw : requests w = 3%nat) by (vm_compute; reflexivity).
  destruct (proj2 (packageLookup_in_resolved_registry_is_cache_free
                     Sample.mirror_env "https://mirror.example" "vendor/lib"
                     w Sample.mirror_view ltac:(discriminate) Hv)
              "/p/%package%$%hash%.json" "def")
    as (Htrace & Hreq & _ & _ & Hreq2 & _);
    [reflexivity|reflexivity|reflexivity|discriminate|reflexivity|].
  fold out in Htrace, Hreq, Hreq2. fold again in Hreq2.
  split; [exact Htrace|]. split; [exact Hw|].
  split; [by rewrite Hreq, Hw|by rewrite Hreq2, Hw].
Defined.

Lemma filterStatus_keeps_latest_per_context_witness :
  exists r,
    In r (Gitea.filterStatus Sample.time_value Sample.statuses)
    /\ Gitea.context r = "ci"
    /\ forall a b,
         Sample.time_value (Gitea.created_at Sample.ci_failed) = Some a ->
         Sample.time_value (Gitea.created_at r) = Some b ->
         a <= b.
Proof.
  apply (proj2 (proj2 (filterStatus_keeps_latest_per_context
                         Sample.time_value Sample.statuses))
           Sample.ci_failed); [by left|reflexivity].
Defined.

Lemma status_mapping_round_trip_witness :
  is_Some (get Gitea.giteaToRenovateStatusMapping "error").
Proof.
  apply (proj1 (proj2 (status_mapping_round_trip Sample.time_value [])) "error").
  simpl. tauto.
Defined.

Lemma packageLookup_default_not_found_writes_nothing_witness :
  let out := packageLookup
               {| hostRules_find := Demo.rules; URL_resolve := Demo.resolve;
                  root_document := Demo.root; shard_document := Demo.shard;
                  package_document := fun _ _ _ => inl Demo.not_found;
                  other_tasks := fun c => c; poll_budget := 3 |}
               default_registry "vendor/gone" Demo.start in
  fst out = Ok Null /\ org_ns (snd out) = ∅.
Proof.
  intros out.
  destruct (packageLookup_default_not_found_writes_nothing
              {| hostRules_find := Demo.rules; URL_resolve := Demo.resolve;
                 root_document := Demo.root; shard_document := Demo.shard;
                 package_document := fun _ _ _ => inl Demo.not_found;
                 other_tasks := fun c => c; poll_budget := 3 |}
              "vendor/gone" Demo.start Demo.not_found)
    as (H1 & H2 & _).
  - intros d ttl. vm_compute. discriminate.
  - reflexivity.
  - left. reflexivity.
  - split; [exact H1|exact H2].
Defined.

Lemma packagistOrgLookup_inherited_name_witness :
  let out := packagistOrgLookup Demo.env "constructor" Demo.start in
  fst out
  = Ok (Val {| name := Some "constructor"; releases := Some [];
               homepage := None; sourceUrl := None |})
  /\ requests (snd (packagistOrgLookup Demo.env "constructor" (snd out)))
     = 1%nat.
Proof.
  intros out.
  destruct (packagistOrgLookup_inherited_name Demo.env "constructor"
              Demo.start {| pb_packages := Some [] |} [])
    as (Hr & _ & _ & Hagain).
  - intros d ttl. vm_compute. discriminate.
  - reflexivity.
  - reflexivity.
  - reflexivity.
  - reflexivity.
  - split; [exact Hr|]. fold out in Hagain. by rewrite Hagain.
Defined.

Lemma packageLookup_inherited_name_is_found_witness :
  packageLookup Sample.env "https://nourl.example" "toString" Demo.start
  = (Ok (Val (Member toString)), Sample.nourl_assembled).
Proof.
  destruct (packageLookup_inherited_name_is_found Sample.env
              "https://nourl.example" "toString" Demo.start Sample.nourl_view
              Sample.nourl_assembled)
    as (found & Hout & _ & Hm);
    [discriminate|vm_compute; reflexivity|reflexivity|].
  rewrite Hout. by rewrite (Hm toString eq_refl eq_refl eq_refl).
Defined.
